(** * manifest-check: the manifest validator and the repository scan

    A shallow embedding of [src/main.go] (the worker-pool revision) and of
    [src/unnamed/part_000] (the sequential revision of the same program).

    - Go strings are byte strings: [string] with one [ascii] per byte.
    - Standard output and standard error are one trace of [event]s; every
      [fmt.Printf], [fmt.Fprintf] and [fmt.Fprintln] call is one event.
    - A Go [error] is [option error]; [None] is [nil].
    - The registry ([distribution.Namespace]), the files and
      [encoding/json] are collaborators.  The validator is written over an
      arbitrary decoder; module [json] gives the decoder of the Go library
      for the record the program decodes, so that examples can run. *)

From Stdlib Require Import String Ascii List Bool Arith NArith ZArith Lia.
From Stdlib Require Import DecimalString.
From Stdlib Require Import Permutation.
Import ListNotations.
Local Open Scope string_scope.
Local Open Scope list_scope.

(** ** Go values shared by both revisions *)

(** [io.EOF] is a sentinel compared by identity; every other error is known
    to the program only through its text. *)
Inductive error : Type :=
| EOF
| Errorf (msg : string).

(** [err.Error()], which is what [%v] prints for an error. *)
Definition Error (e : error) : string :=
  match e with
  | EOF => "EOF"
  | Errorf msg => msg
  end.

(** [err != io.EOF] *)
Definition isEOF (e : error) : bool :=
  match e with
  | EOF => true
  | Errorf _ => false
  end.

Definition nl : string := String (ascii_of_nat 10) EmptyString.
Definition dquote : string := String (ascii_of_nat 34) EmptyString.

(** What the process writes (and [flag.Usage], whose text belongs to the
    flag package). *)
Inductive event : Type :=
| Stdout (line : string)
| Stderr (line : string)
| Usage.

(** How a run of [main] ends. *)
Inductive outcome : Type :=
| Returned
| Panicked (msg : string).

(** The local type of [checkManifest]:
    [type image struct { ID string `json:"id"`; Parent string `json:"parent"` }] *)
Record image : Type := Image { ID : string; Parent : string }.

(** [var im image] *)
Definition zero_image : image := Image "" "".

(** A writer for the output trace: [IO A] is a computation that prints
    events and yields an [A]. *)
Definition IO (A : Type) : Type := (list event * A)%type.

Definition ret {A} (a : A) : IO A := ([], a).

Definition bind {A B} (c : IO A) (k : A -> IO B) : IO B :=
  let '(o1, a) := c in
  let '(o2, b) := k a in
  (o1 ++ o2, b).

Definition print (e : event) : IO unit := ([e], tt).

Declare Scope io_scope.
Delimit Scope io_scope with io.
Notation "x <- c ;; k" := (bind c (fun x => k))
  (at level 61, c at next level, right associativity) : io_scope.
Notation "c ;;; k" := (bind c (fun _ => k))
  (at level 61, right associativity) : io_scope.

(** [if cond { body }] for a body that only prints. *)
Definition when (cond : bool) (body : IO unit) : IO unit :=
  if cond then body else ret tt.

(** ** [encoding/json], as far as [checkManifest] uses it

    [json.Unmarshal(data, &im)] for [im] of type [image], after the Go
    library: the input is first checked as a whole by the scanner
    ([checkValid]; a syntax error leaves [im] untouched and carries the
    scanner's message), then decoded.  A JSON value of the wrong type for
    its target is skipped, decoding goes on, and the first such mismatch is
    returned as the error ([*json.UnmarshalTypeError]).  Keys match field
    names exactly or up to ASCII case; [null] leaves its target as it
    is. *)
Module json.

Inductive token : Type :=
| TLBrace | TRBrace | TLBracket | TRBracket | TColon | TComma
| TString (raw : string)
| TNumber | TTrue | TFalse | TNull.

Definition code (c : ascii) : N := N_of_ascii c.

Definition byte (n : N) : ascii := ascii_of_N n.

Definition bytes (l : list N) : string := string_of_list_ascii (map byte l).

Definition isSpace (c : ascii) : bool :=
  let n := code c in
  ((n =? 32) || (n =? 9) || (n =? 13) || (n =? 10))%N.

Definition isDigit (c : ascii) : bool := ((48 <=? code c) && (code c <=? 57))%N.
Definition isDigit19 (c : ascii) : bool := ((49 <=? code c) && (code c <=? 57))%N.
Definition isExp (c : ascii) : bool := ((code c =? 101) || (code c =? 69))%N.

Definition hexValue (c : ascii) : option N :=
  let n := code c in
  if ((48 <=? n) && (n <=? 57))%N then Some (n - 48)%N
  else if ((97 <=? n) && (n <=? 102))%N then Some (n - 87)%N
  else if ((65 <=? n) && (n <=? 70))%N then Some (n - 55)%N
  else None.

Definition rawString (raw : list ascii) : string :=
  string_of_list_ascii (rev raw).

(** *** The scanner's messages *)

Definition hexDigit (n : N) : ascii :=
  if (n <? 10)%N then byte (48 + n) else byte (87 + n).

(** [quoteChar]: the byte between single quotes, written as
    [strconv.Quote] writes the character of that number. *)
Definition quoteChar (c : ascii) : string :=
  let n := code c in
  let q := String (byte 39) EmptyString in
  let bs := String (byte 92) EmptyString in
  if (n =? 39)%N then q ++ bs ++ q ++ q
  else if (n =? 34)%N then q ++ dquote ++ q
  else
    q ++ (if (n =? 92)%N then bs ++ bs
          else if (n =? 7)%N then bs ++ "a"
          else if (n =? 8)%N then bs ++ "b"
          else if (n =? 12)%N then bs ++ "f"
          else if (n =? 10)%N then bs ++ "n"
          else if (n =? 13)%N then bs ++ "r"
          else if (n =? 9)%N then bs ++ "t"
          else if (n =? 11)%N then bs ++ "v"
          else if ((n <? 32) || (n =? 127))%N
               then bs ++ "x" ++ String (hexDigit (N.shiftr n 4))
                                        (String (hexDigit (N.land n 15)) EmptyString)
          else if (n <? 127)%N then String c EmptyString
          else if ((n <? 161) || (n =? 173))%N
               then bs ++ "u00" ++ String (hexDigit (N.shiftr n 4))
                                          (String (hexDigit (N.land n 15)) EmptyString)
          else bytes [N.lor 192 (N.shiftr n 6); N.lor 128 (N.land n 63)])
      ++ q.

(** [s.error(c, context)] *)
Definition invalidCharacter (c : ascii) (context : string) : string :=
  "invalid character " ++ quoteChar c ++ " " ++ context.

Definition unexpectedEnd : string := "unexpected end of JSON input".

(** The context of a byte that is no hexadecimal digit after a backslash
    and [u]. *)
Definition inUnicodeEscape : string :=
  "in " ++ String (byte 92) "u hexadecimal character escape".

(** *** The scanner

    The state machine of [scanner.go], one step per byte.  Beside the step
    function and the stack of open objects and arrays the state keeps what
    the decoder reads off the same scan: the tokens completed so far (last
    first) and the bytes of the string literal being read (last first). *)
Inductive parseState : Type := parseObjectKey | parseObjectValue | parseArrayValue.

Inductive stepState : Type :=
| stateBeginValueOrEmpty | stateBeginValue | stateBeginStringOrEmpty | stateBeginString
| stateEndValue | stateEndTop
| stateInString | stateInStringEsc
| stateInStringEscU (more : nat)
| stateNeg | state1 | state0 | stateDot | stateDot0 | stateE | stateESign | stateE0
| stateLiteral (name expect : string) (t : token).

Record scanner : Type :=
  Scanner { step : stepState;
            parseStack : list parseState;
            toks : list token;
            raw : list ascii }.

Inductive scanned (A : Type) : Type :=
| Scanning (a : A)
| SyntaxError (msg : string).
Arguments Scanning {A} a.
Arguments SyntaxError {A} msg.

Definition maxNestingDepth : N := 10000.

Definition goto (st : stepState) (sc : scanner) : scanner :=
  Scanner st (parseStack sc) (toks sc) (raw sc).

Definition emit (t : token) (sc : scanner) : scanner :=
  Scanner (step sc) (parseStack sc) (t :: toks sc) (raw sc).

Definition keep (c : ascii) (sc : scanner) : scanner :=
  Scanner (step sc) (parseStack sc) (toks sc) (c :: raw sc).

Definition stateEndTop_ (sc : scanner) (c : ascii) : scanned scanner :=
  if isSpace c then Scanning (goto stateEndTop sc)
  else SyntaxError (invalidCharacter c "after top-level value").

(** [s.popParseState()] *)
Definition popParseState (up : list parseState) (sc : scanner) : scanner :=
  Scanner (match up with [] => stateEndTop | _ => stateEndValue end)
          up (toks sc) (raw sc).

Definition stateEndValue_ (sc : scanner) (c : ascii) : scanned scanner :=
  let n := code c in
  match parseStack sc with
  | [] => stateEndTop_ sc c
  | ps :: up =>
      if isSpace c then Scanning (goto stateEndValue sc)
      else
        match ps with
        | parseObjectKey =>
            if (n =? 58)%N
            then Scanning (Scanner stateBeginValue (parseObjectValue :: up)
                                   (TColon :: toks sc) (raw sc))
            else SyntaxError (invalidCharacter c "after object key")
        | parseObjectValue =>
            if (n =? 44)%N
            then Scanning (Scanner stateBeginString (parseObjectKey :: up)
                                   (TComma :: toks sc) (raw sc))
            else if (n =? 125)%N then Scanning (popParseState up (emit TRBrace sc))
            else SyntaxError (invalidCharacter c "after object key:value pair")
        | parseArrayValue =>
            if (n =? 44)%N then Scanning (goto stateBeginValue (emit TComma sc))
            else if (n =? 93)%N then Scanning (popParseState up (emit TRBracket sc))
            else SyntaxError (invalidCharacter c "after array element")
        end
  end.

(** [s.pushParseState(c, newParseState, successState)] *)
Definition pushParseState (c : ascii) (ps : parseState) (st : stepState) (t : token)
           (sc : scanner) : scanned scanner :=
  if (N.of_nat (length (ps :: parseStack sc)) <=? maxNestingDepth)%N
  then Scanning (Scanner st (ps :: parseStack sc) (t :: toks sc) (raw sc))
  else SyntaxError (invalidCharacter c "exceeded max depth").

Definition beginString (sc : scanner) : scanner :=
  Scanner stateInString (parseStack sc) (toks sc) [].

Definition stateBeginValue_ (sc : scanner) (c : ascii) : scanned scanner :=
  let n := code c in
  if isSpace c then Scanning sc
  else if (n =? 123)%N then pushParseState c parseObjectKey stateBeginStringOrEmpty TLBrace sc
  else if (n =? 91)%N then pushParseState c parseArrayValue stateBeginValueOrEmpty TLBracket sc
  else if (n =? 34)%N then Scanning (beginString sc)
  else if (n =? 45)%N then Scanning (goto stateNeg sc)
  else if (n =? 48)%N then Scanning (goto state0 sc)
  else if (n =? 116)%N then Scanning (goto (stateLiteral "true" "rue" TTrue) sc)
  else if (n =? 102)%N then Scanning (goto (stateLiteral "false" "alse" TFalse) sc)
  else if (n =? 110)%N then Scanning (goto (stateLiteral "null" "ull" TNull) sc)
  else if isDigit19 c then Scanning (goto state1 sc)
  else SyntaxError (invalidCharacter c "looking for beginning of value").

Definition stateBeginString_ (sc : scanner) (c : ascii) : scanned scanner :=
  if isSpace c then Scanning sc
  else if (code c =? 34)%N then Scanning (beginString sc)
  else SyntaxError (invalidCharacter c "looking for beginning of object key string").

Definition stateInString_ (sc : scanner) (c : ascii) : scanned scanner :=
  let n := code c in
  if (n =? 34)%N then Scanning (goto stateEndValue (emit (TString (rawString (raw sc))) sc))
  else if (n =? 92)%N then Scanning (goto stateInStringEsc (keep c sc))
  else if (n <? 32)%N then SyntaxError (invalidCharacter c "in string literal")
  else Scanning (keep c sc).

(** The end of a number: the byte is looked at again after the value. *)
Definition endNumber (sc : scanner) (c : ascii) : scanned scanner :=
  stateEndValue_ (emit TNumber sc) c.

Definition state0_ (sc : scanner) (c : ascii) : scanned scanner :=
  if (code c =? 46)%N then Scanning (goto stateDot sc)
  else if isExp c then Scanning (goto stateE sc)
  else endNumber sc c.

Definition stateESign_ (sc : scanner) (c : ascii) : scanned scanner :=
  if isDigit c then Scanning (goto stateE0 sc)
  else SyntaxError (invalidCharacter c "in exponent of numeric literal").

Definition scanStep (sc : scanner) (c : ascii) : scanned scanner :=
  let n := code c in
  match step sc with
  | stateBeginValueOrEmpty =>
      if isSpace c then Scanning sc
      else if (n =? 93)%N then stateEndValue_ sc c
      else stateBeginValue_ sc c
  | stateBeginValue => stateBeginValue_ sc c
  | stateBeginStringOrEmpty =>
      if isSpace c then Scanning sc
      else if (n =? 125)%N
           then stateEndValue_
                  (Scanner (step sc)
                           (match parseStack sc with
                            | _ :: up => parseObjectValue :: up
                            | [] => []
                            end)
                           (toks sc) (raw sc)) c
           else stateBeginString_ sc c
  | stateBeginString => stateBeginString_ sc c
  | stateEndValue => stateEndValue_ sc c
  | stateEndTop => stateEndTop_ sc c
  | stateInString => stateInString_ sc c
  | stateInStringEsc =>
      if ((n =? 98) || (n =? 102) || (n =? 110) || (n =? 114) || (n =? 116)
          || (n =? 92) || (n =? 47) || (n =? 34))%N
      then Scanning (goto stateInString (keep c sc))
      else if (n =? 117)%N then Scanning (goto (stateInStringEscU 4) (keep c sc))
      else SyntaxError (invalidCharacter c "in string escape code")
  | stateInStringEscU more =>
      match hexValue c, more with
      | Some _, 1 => Scanning (goto stateInString (keep c sc))
      | Some _, _ => Scanning (goto (stateInStringEscU (pred more)) (keep c sc))
      | None, _ =>
          SyntaxError (invalidCharacter c inUnicodeEscape)
      end
  | stateNeg =>
      if (n =? 48)%N then Scanning (goto state0 sc)
      else if isDigit19 c then Scanning (goto state1 sc)
      else SyntaxError (invalidCharacter c "in numeric literal")
  | state1 => if isDigit c then Scanning sc else state0_ sc c
  | state0 => state0_ sc c
  | stateDot =>
      if isDigit c then Scanning (goto stateDot0 sc)
      else SyntaxError (invalidCharacter c "after decimal point in numeric literal")
  | stateDot0 =>
      if isDigit c then Scanning sc
      else if isExp c then Scanning (goto stateE sc)
      else endNumber sc c
  | stateE =>
      if ((n =? 43) || (n =? 45))%N then Scanning (goto stateESign sc)
      else stateESign_ sc c
  | stateESign => stateESign_ sc c
  | stateE0 => if isDigit c then Scanning sc else endNumber sc c
  | stateLiteral name expect t =>
      match expect with
      | String e rest =>
          if Ascii.eqb c e
          then match rest with
               | EmptyString => Scanning (goto stateEndValue (emit t sc))
               | _ => Scanning (goto (stateLiteral name rest t) sc)
               end
          else SyntaxError
                 (invalidCharacter c
                    ("in literal " ++ name ++ " (expecting " ++ quoteChar e ++ ")"))
      | EmptyString => stateEndValue_ sc c
      end
  end.

(** [for _, c := range data { ... scan.step(scan, c) ... }] *)
Fixpoint scanFrom (data : string) (sc : scanner) : scanned scanner :=
  match data with
  | EmptyString => Scanning sc
  | String c rest =>
      match scanStep sc c with
      | Scanning sc' => scanFrom rest sc'
      | SyntaxError msg => SyntaxError msg
      end
  end.

(** [scan.eof()]: at the end of the input the scanner steps once more, on
    a space. *)
Definition eof (sc : scanner) : scanned (list token) :=
  match step sc with
  | stateEndTop => Scanning (rev (toks sc))
  | _ =>
      match scanStep sc " "%char with
      | SyntaxError msg => SyntaxError msg
      | Scanning sc' =>
          match step sc' with
          | stateEndTop => Scanning (rev (toks sc'))
          | _ => SyntaxError unexpectedEnd
          end
      end
  end.

(** [scan.reset()] *)
Definition reset : scanner := Scanner stateBeginValue [] [] [].

Definition scan (data : string) : scanned (list token) :=
  match scanFrom data reset with
  | Scanning sc => eof sc
  | SyntaxError msg => SyntaxError msg
  end.



(** *** Unquoting a string literal *)

(** [utf8.EncodeRune]; a surrogate or a value past U+10FFFF is written as
    U+FFFD. *)
Definition encodeRune (r : N) : string :=
  (if r <? 128 then bytes [r]
   else if r <? 2048 then bytes [N.lor 192 (N.shiftr r 6); N.lor 128 (N.land r 63)]
   else if ((55296 <=? r) && (r <? 57344)) || (1114111 <? r) then bytes [239; 191; 189]
   else if r <? 65536 then
     bytes [N.lor 224 (N.shiftr r 12); N.lor 128 (N.land (N.shiftr r 6) 63);
            N.lor 128 (N.land r 63)]
   else
     bytes [N.lor 240 (N.shiftr r 18); N.lor 128 (N.land (N.shiftr r 12) 63);
            N.lor 128 (N.land (N.shiftr r 6) 63); N.lor 128 (N.land r 63)])%N.

(** [getu4]: the value of a leading [\uXXXX], if there is one. *)
Definition getu4 (s : string) : option N :=
  match s with
  | String b (String u (String h1 (String h2 (String h3 (String h4 _))))) =>
      if ((code b =? 92) && (code u =? 117))%N then
        match hexValue h1, hexValue h2, hexValue h3, hexValue h4 with
        | Some a, Some b, Some c, Some d => Some (((a * 16 + b) * 16 + c) * 16 + d)%N
        | _, _, _, _ => None
        end
      else None
  | _ => None
  end.

Definition isCont (lo hi : N) (c : ascii) : bool := ((lo <=? code c) && (code c <=? hi))%N.

(** Whether [rest] begins with [k] continuation bytes, the first of them
    between [lo] and [hi]: then [k], else 0. *)
Definition utf8Cont (rest : string) (lo hi : N) (k : nat) : nat :=
  match rest with
  | String c1 r1 =>
      if isCont lo hi c1 then
        match k, r1 with
        | 1, _ => 1
        | 2, String c2 _ => if isCont 128 191 c2 then 2 else 0
        | 3, String c2 (String c3 _) =>
            if isCont 128 191 c2 && isCont 128 191 c3 then 3 else 0
        | _, _ => 0
        end
      else 0
  | EmptyString => 0
  end.

(** The number of continuation bytes of the well-formed UTF-8 sequence
    that [lead] begins in front of [rest]; 0 when there is none
    ([utf8.DecodeRune] then yields U+FFFD of width 1). *)
Definition utf8Tail (lead : ascii) (rest : string) : nat :=
  let n := code lead in
  if ((194 <=? n) && (n <=? 223))%N then utf8Cont rest 128 191 1
  else if (n =? 224)%N then utf8Cont rest 160 191 2
  else if (n =? 237)%N then utf8Cont rest 128 159 2
  else if ((225 <=? n) && (n <=? 239))%N then utf8Cont rest 128 191 2
  else if (n =? 240)%N then utf8Cont rest 144 191 3
  else if ((241 <=? n) && (n <=? 243))%N then utf8Cont rest 128 191 3
  else if (n =? 244)%N then utf8Cont rest 128 143 3
  else 0.

Definition escapeByte (e : ascii) : ascii :=
  let n := code e in
  (if n =? 98 then byte 8
   else if n =? 102 then byte 12
   else if n =? 110 then byte 10
   else if n =? 114 then byte 13
   else if n =? 116 then byte 9
   else e)%N.

(** [unquote] on the inside of a literal the scanner accepted.  [skip]
    bytes are dropped (the rest of an escape already decoded) and [copy]
    bytes are taken as they are (the rest of a UTF-8 sequence). *)
Fixpoint unquoteFrom (skip copy : nat) (s : string) : string :=
  match s with
  | EmptyString => EmptyString
  | String c r =>
      match skip, copy with
      | S k, _ => unquoteFrom k copy r
      | 0, S k => String c (unquoteFrom 0 k r)
      | 0, 0 =>
          if (code c =? 92)%N then
            match r with
            | String e r' =>
                if (code e =? 117)%N then
                  match getu4 s with
                  | Some rr =>
                      if ((55296 <=? rr) && (rr <? 57344))%N then
                        match getu4 (match r' with
                                     | String _ (String _ (String _ (String _ t))) => t
                                     | _ => EmptyString
                                     end) with
                        | Some rr1 =>
                            if ((rr <? 56320) && (56320 <=? rr1) && (rr1 <? 57344))%N
                            then encodeRune (((rr - 55296) * 1024 + (rr1 - 56320)) + 65536)%N
                                   ++ unquoteFrom 11 0 r
                            else encodeRune 65533 ++ unquoteFrom 5 0 r
                        | None => encodeRune 65533 ++ unquoteFrom 5 0 r
                        end
                      else encodeRune rr ++ unquoteFrom 5 0 r
                  | None => EmptyString
                  end
                else String (escapeByte e) (unquoteFrom 1 0 r)
            | EmptyString => EmptyString
            end
          else if (code c <? 128)%N then String c (unquoteFrom 0 0 r)
          else
            match utf8Tail c r with
            | 0 => encodeRune 65533 ++ unquoteFrom 0 0 r
            | k => String c (unquoteFrom 0 k r)
            end
      end
  end.

Definition unquote (raw : string) : string := unquoteFrom 0 0 raw.

(** *** Decoding into [image] *)

Inductive field : Type := FieldID | FieldParent.

Definition fieldName (f : field) : string :=
  match f with
  | FieldID => "id"
  | FieldParent => "parent"
  end.

Definition lower (c : ascii) : ascii :=
  if ((65 <=? code c) && (code c <=? 90))%N then byte (code c + 32) else c.

Fixpoint equalFold (key name : string) : bool :=
  match key, name with
  | EmptyString, EmptyString => true
  | String a key', String b name' => Ascii.eqb (lower a) (lower b) && equalFold key' name'
  | _, _ => false
  end.

Definition fieldOf (key : string) : option field :=
  if equalFold key (fieldName FieldID) then Some FieldID
  else if equalFold key (fieldName FieldParent) then Some FieldParent
  else None.

Definition store (f : option field) (s : string) (v : image) : image :=
  match f with
  | Some FieldID => Image s (Parent v)
  | Some FieldParent => Image (ID v) s
  | None => v
  end.

(** [*json.SyntaxError] with the scanner's message. *)
Definition syntaxError (msg : string) : error := Errorf msg.

Definition topLevelTypeError (value : string) : error :=
  Errorf ("json: cannot unmarshal " ++ value ++ " into Go value of type main.image").

Definition fieldTypeError (value : string) (f : field) : error :=
  Errorf ("json: cannot unmarshal " ++ value ++ " into Go struct field image."
          ++ fieldName f ++ " of type string").

(** [d.saveError]: only the first mismatch is kept, and only values of
    known fields are looked at. *)
Definition mismatch (f : option field) (value : string) (saved : option error)
  : option error :=
  match f, saved with
  | Some f, None => Some (fieldTypeError value f)
  | _, _ => saved
  end.

(** Where the decoder stands inside the top-level object. *)
Inductive decodeState : Type :=
| DKey
| DColon (f : option field)
| DValue (f : option field)
| DSkip (depth : nat)
| DAfter.

Fixpoint object (ts : list token) (st : decodeState) (v : image) (saved : option error)
  : image * option error :=
  match ts with
  | [] => (v, saved)
  | t :: rest =>
      match st, t with
      | DKey, TString raw => object rest (DColon (fieldOf (unquote raw))) v saved
      | DColon f, TColon => object rest (DValue f) v saved
      | DValue f, TString raw => object rest DAfter (store f (unquote raw) v) saved
      | DValue f, TNull => object rest DAfter v saved
      | DValue f, TNumber => object rest DAfter v (mismatch f "number" saved)
      | DValue f, (TTrue | TFalse) => object rest DAfter v (mismatch f "bool" saved)
      | DValue f, TLBrace => object rest (DSkip 1) v (mismatch f "object" saved)
      | DValue f, TLBracket => object rest (DSkip 1) v (mismatch f "array" saved)
      | DSkip d, (TLBrace | TLBracket) => object rest (DSkip (S d)) v saved
      | DSkip (S (S d)), (TRBrace | TRBracket) => object rest (DSkip (S d)) v saved
      | DSkip _, (TRBrace | TRBracket) => object rest DAfter v saved
      | DSkip d, _ => object rest (DSkip d) v saved
      | DAfter, TComma => object rest DKey v saved
      | _, _ => (v, saved)
      end
  end.

(** [json.Unmarshal(data, &v)] for [v] of type [image]: the value left in
    [v] and the error returned. *)
Definition Unmarshal (data : string) (v : image) : image * option error :=
  match scan data with
  | SyntaxError msg => (v, Some (syntaxError msg))
  | Scanning (TLBrace :: rest) => object rest DKey v None
  | Scanning (TNull :: _) => (v, None)
  | Scanning (TString _ :: _) => (v, Some (topLevelTypeError "string"))
  | Scanning (TNumber :: _) => (v, Some (topLevelTypeError "number"))
  | Scanning ((TTrue | TFalse) :: _) => (v, Some (topLevelTypeError "bool"))
  | Scanning (TLBracket :: _) => (v, Some (topLevelTypeError "array"))
  | Scanning _ => (v, None)
  end.

(** A string literal of plain text, [{ members }], and [key: value]. *)
Definition quoted (s : string) : string := dquote ++ s ++ dquote.
Definition obj (members : string) : string := "{" ++ members ++ "}".
Definition member (key value : string) : string := quoted key ++ ":" ++ value.

End json.

(** ** Manifests

    The two revisions import the manifest type from different packages of
    [docker/distribution]; [checkManifest] reads the same two fields of
    either. *)
Module schema1.
(** [History_] is the field [History] of the Go type, [History] the type of
    its elements. *)
Record FSLayer : Type := { BlobSum : string }.
Record History : Type := { V1Compatibility : string }.
Record SignedManifest : Type :=
  { Name : string; Tag : string; FSLayers : list FSLayer; History_ : list History }.
End schema1.

Module manifest.
Record FSLayer : Type := { BlobSum : string }.
Record History : Type := { V1Compatibility : string }.
Record SignedManifest : Type :=
  { Name : string; Tag : string; FSLayers : list FSLayer; History_ : list History }.
End manifest.

(** The lines [checkManifest] prints: each is ["%s: <text>\n"] on standard
    output with the repository name for [%s]. *)
Definition finding (repoName text : string) : event :=
  Stdout (repoName ++ ": " ++ text ++ nl).

Definition noLayers : string := "no layers present".
Definition mismatched : string := "mismatched layers and history".
Definition unmarshalError (err : error) : string := "json unmarshal error: " ++ Error err.
Definition parentNotBelow (parent : string) : string :=
  "parent not below in manifest (parent ID " ++ parent ++ ")".

(** ** Collaborators

    A call that returns [(value, err)] yields [Ok value] or [Fail err]. *)
Inductive result (A : Type) : Type :=
| Ok (a : A)
| Fail (err : error).
Arguments Ok {A} a.
Arguments Fail {A} err.

(** [distribution.Namespace] and what it hands out, over the manifest
    type [M] of the revision.  [Repositories] fills the slice it is given:
    it reports the entries it wrote, from index 0 on, the count [n] and the
    error. *)
Record ManifestService (M : Type) : Type :=
  { Tags : result (list string);
    GetByTag : string -> result M }.

Record Repository (M : Type) : Type :=
  { Manifests : result (ManifestService M) }.

Record Namespace (M : Type) : Type :=
  { OpenRepository : string -> result (Repository M);
    Repositories : nat -> string -> list string * Z * option error }.

Arguments Tags {M} _.
Arguments GetByTag {M} _ _.
Arguments Manifests {M} _.
Arguments OpenRepository {M} _ _.
Arguments Repositories {M} _ _ _.

(** What [main] reads besides the registry: the outcome of opening and
    parsing the configuration file and of creating the storage driver, the
    registry built from them, and the repository-list file, as the lines
    [scanner.Text()] yields while [scanner.Scan()] holds. *)
Record Env (M : Type) : Type :=
  { openConfig : string -> option error;
    parseConfig : option error;
    createDriver : option error;
    newRegistry : Namespace M;
    openRepos : string -> result (list string) }.

Arguments openConfig {M} _ _.
Arguments parseConfig {M} _.
Arguments createDriver {M} _.
Arguments newRegistry {M} _.
Arguments openRepos {M} _ _.

(** A slice of [len] strings written from index 0 on with [entries]. *)
Definition fillBuffer (entries buf : list string) : list string :=
  firstn (length buf) (entries ++ skipn (length entries) buf).

(** [maxRepos] *)
Definition maxRepos : Z := 500000.

(** What the resolution of the repository names ends in: the list to scan,
    or a panic. *)
Inductive resolution : Type :=
| Repos (repos : list string)
| Fatal (msg : string).

(** [%d] of an int. *)
Definition decimal (n : Z) : string := NilZero.string_of_int (Z.to_int n).

(** [repos[:n]] for [repos] of length and capacity [len(repos)]; out of
    range the run-time system panics with the bound, and with the capacity
    when the bound is not negative. *)
Definition slice_to (repos : list string) (n : Z) : resolution :=
  if (n <? 0)%Z
  then Fatal ("runtime error: slice bounds out of range [:" ++ decimal n ++ "]")
  else if (Z.of_nat (length repos) <? n)%Z
  then Fatal ("runtime error: slice bounds out of range [:" ++ decimal n
              ++ "] with capacity " ++ decimal (Z.of_nat (length repos)))
  else Repos (firstn (Z.to_nat n) repos).

(** ** [src/main.go] *)
Module Main.

Import schema1.

Section Validator.

(** [json.Unmarshal] into an [image]. *)
Variable Unmarshal : string -> image -> image * option error.

(** [for _, entry := range mnfst.History { ... images = append(images, im) }] *)
Fixpoint decodeHistory (repoName : string) (history : list History)
         (images : list image) : IO (list image) :=
  match history with
  | [] => ret images
  | entry :: rest =>
      let '(im, err) := Unmarshal (V1Compatibility entry) zero_image in
      (match err with
       | Some e => print (finding repoName (unmarshalError e))
       | None => ret tt
       end ;;;
       decodeHistory repoName rest (images ++ [im]))%io
  end.

(** [for _, parentCandidate := range images[i:] { id = parentCandidate.ID;
    if image.Parent == id { break } }]: the value of [id] after the loop. *)
Fixpoint scanParent (parent : string) (candidates : list image) (id : string) : string :=
  match candidates with
  | [] => id
  | parentCandidate :: rest =>
      let id := ID parentCandidate in
      if String.eqb parent id then id else scanParent parent rest id
  end.

(** The body of the loop over [images], at index [i]. *)
Definition checkParentLink (repoName : string) (images : list image)
           (i : nat) (image : image) : IO unit :=
  when (negb (String.eqb (Parent image) ""))
    (let id := scanParent (Parent image) (skipn i images) "" in
     when (negb (String.eqb (Parent image) id))
       (print (finding repoName (parentNotBelow (Parent (nth i images zero_image)))))).

(** [for i, image := range images { ... }], from index [i] on. *)
Fixpoint parentLinks (repoName : string) (images : list image)
         (i : nat) (todo : list image) : IO unit :=
  match todo with
  | [] => ret tt
  | image :: rest =>
      (checkParentLink repoName images i image ;;;
       parentLinks repoName images (S i) rest)%io
  end.

Definition checkManifest (repoName : string) (mnfst : SignedManifest)
  : IO (option error) :=
  (when (Nat.eqb (length (FSLayers mnfst)) 0 || Nat.eqb (length (History_ mnfst)) 0)
     (print (finding repoName noLayers)) ;;;
   when (negb (Nat.eqb (length (FSLayers mnfst)) (length (History_ mnfst))))
     (print (finding repoName mismatched)) ;;;
   images <- decodeHistory repoName (History_ mnfst) [] ;;
   parentLinks repoName images 0 images ;;;
   ret None)%io.

End Validator.

Section Scan.

Variable Unmarshal : string -> image -> image * option error.
Variable registry : Namespace SignedManifest.

(** [for _, tag := range tags { ... }] *)
Fixpoint checkTags (manifests : ManifestService SignedManifest) (repoName : string)
         (tags : list string) : IO (option error) :=
  match tags with
  | [] => ret None
  | tag :: rest =>
      match GetByTag manifests tag with
      | Fail err =>
          ret (Some (Errorf ("unexpected error getting manifest by tag: " ++ Error err)))
      | Ok mnfst =>
          (err <- checkManifest Unmarshal repoName mnfst ;;
           match err with
           | Some e => ret (Some e)
           | None => checkTags manifests repoName rest
           end)%io
      end
  end.

(** The format has two verbs and one operand: [%d] prints as
    [%!d(MISSING)]. *)
Definition checkRepo (repoName : string) : IO (option error) :=
  match OpenRepository registry repoName with
  | Fail err => ret (Some (Errorf ("unexpected error getting repository: " ++ Error err)))
  | Ok repo =>
      match Manifests repo with
      | Fail err => ret (Some (Errorf ("unexpected error getting manifests: " ++ Error err)))
      | Ok manifests =>
          match Tags manifests with
          | Fail err => ret (Some (Errorf ("unexpected error getting tags: " ++ Error err)))
          | Ok tags =>
              (print (Stderr ("checking repo " ++ repoName ++ " (%!d(MISSING) tags)" ++ nl)) ;;;
               checkTags manifests repoName tags)%io
          end
      end
  end.

(** The body of a worker's loop: [checkRepo], then the error, if any, on
    standard error.  The events one repository's visit prints, in order. *)
Definition visit (repoName : string) : list event :=
  fst (err <- checkRepo repoName ;;
       match err with
       | Some e => print (Stderr (Error e ++ nl))
       | None => ret tt
       end)%io.

End Scan.

(** *** Resolving the repository names *)

(** [if repoName[0] == '+' { repoName = repoName[1:] }] *)
Definition stripPlus (repoName : string) : string :=
  match repoName with
  | String c tail => if Ascii.eqb c "+"%char then tail else repoName
  | EmptyString => repoName
  end.

(** [for scanner.Scan() { repoName := scanner.Text(); ... }] *)
Fixpoint readRepos (lines : list string) (repos : list string) : list string :=
  match lines with
  | [] => repos
  | repoName :: rest =>
      if Nat.ltb 0 (String.length repoName)
      then readRepos rest (repos ++ [stripPlus repoName])
      else readRepos rest repos
  end.

Definition resolveRepos (env : Env SignedManifest) (reposPath : string) : resolution :=
  if negb (String.eqb reposPath "") then
    match openRepos env reposPath with
    | Fail err => Fatal ("could not open repos file: " ++ Error err)
    | Ok lines => Repos (readRepos lines [])
    end
  else
    let repos := repeat "" (Z.to_nat maxRepos) in
    let '(written, n, err) := Repositories (newRegistry env) (length repos) "" in
    let repos := fillBuffer written repos in
    match err with
    | Some e =>
        if negb (isEOF e) then Fatal ("unexpected error getting repo: " ++ Error e)
        else if (n =? maxRepos)%Z then Fatal "too many repositories"
        else slice_to repos n
    | None =>
        if (n =? maxRepos)%Z then Fatal "too many repositories"
        else slice_to repos n
    end.

(** [main] up to the scan: what it prints and how it ends, or the
    repositories to scan. *)
Inductive prepared : Type :=
| Stop (out : list event) (o : outcome)
| Scan (repos : list string).

Definition prepare (env : Env SignedManifest) (configPath reposPath : string) : prepared :=
  if String.eqb configPath "" then
    Stop [Stderr ("must supply a config file with -config" ++ nl); Usage] Returned
  else
    match openConfig env configPath with
    | Some err => Stop [] (Panicked ("error opening config file: " ++ Error err))
    | None =>
        match parseConfig env with
        | Some err => Stop [] (Panicked ("error parsing config file: " ++ Error err))
        | None =>
            match createDriver env with
            | Some err => Stop [] (Panicked ("error creating storage driver: " ++ Error err))
            | None =>
                match resolveRepos env reposPath with
                | Fatal msg => Stop [] (Panicked msg)
                | Repos repos => Scan repos
                end
            end
        end
    end.

(** *** The worker pool

    [main] starts 30 goroutines that receive repository names from the
    unbuffered channel [repoChan], sends every name of [repos] in order,
    closes the channel and waits for the workers.  A state of the pool:
    the names still to send, whether the channel is closed, what each
    worker is doing, and what has been printed.  [visited] is not a
    variable of the program: it records the names [checkRepo] was called
    with, in the order the workers received them. *)
Inductive worker : Type :=
| Receiving
| Running (todo : list event)
| Exited.

Record pool : Type :=
  Pool { queue : list string;
         closed : bool;
         workers : list worker;
         out : list event;
         visited : list string }.

Definition poolWidth : nat := 30.

Definition start (repos : list string) : pool :=
  Pool repos false (repeat Receiving poolWidth) [] [].

Section Pool.

Variable Unmarshal : string -> image -> image * option error.
Variable registry : Namespace SignedManifest.

(** One step of the process: a worker receives the next name
    ([repoChan <- repoName] meets [range repoChan]), a worker prints its
    next line, a worker is through with its repository, [main] closes the
    channel, a worker leaves its loop ([wg.Done()]). *)
Inductive step : pool -> pool -> Prop :=
| step_receive : forall repoName q ws1 ws2 o v,
    step (Pool (repoName :: q) false (ws1 ++ Receiving :: ws2) o v)
         (Pool q false (ws1 ++ Running (visit Unmarshal registry repoName) :: ws2) o
               (v ++ [repoName]))
| step_print : forall q c ws1 e todo ws2 o v,
    step (Pool q c (ws1 ++ Running (e :: todo) :: ws2) o v)
         (Pool q c (ws1 ++ Running todo :: ws2) (o ++ [e]) v)
| step_next : forall q c ws1 ws2 o v,
    step (Pool q c (ws1 ++ Running [] :: ws2) o v)
         (Pool q c (ws1 ++ Receiving :: ws2) o v)
| step_close : forall ws o v,
    step (Pool [] false ws o v) (Pool [] true ws o v)
| step_exit : forall q ws1 ws2 o v,
    step (Pool q true (ws1 ++ Receiving :: ws2) o v)
         (Pool q true (ws1 ++ Exited :: ws2) o v).

Inductive reaches (s : pool) : pool -> Prop :=
| reaches_here : reaches s s
| reaches_step : forall s1 s2, reaches s s1 -> step s1 s2 -> reaches s s2.

(** [wg.Wait()] returns: the channel is closed and every worker has
    left. *)
Definition exited (w : worker) : bool :=
  match w with
  | Exited => true
  | _ => false
  end.

Definition finished (s : pool) : bool := closed s && forallb exited (workers s).

End Pool.

(** The runs of [main]: what is printed and how the process ends. *)
Inductive runs (Unmarshal : string -> image -> image * option error)
          (env : Env SignedManifest) (configPath reposPath : string)
  : list event -> outcome -> Prop :=
| runs_stop : forall o r,
    prepare env configPath reposPath = Stop o r ->
    runs Unmarshal env configPath reposPath o r
| runs_scan : forall repos s,
    prepare env configPath reposPath = Scan repos ->
    reaches Unmarshal (newRegistry env) (start repos) s ->
    finished s = true ->
    runs Unmarshal env configPath reposPath (out s) Returned.

End Main.

(** ** [src/unnamed/part_000]

    The sequential revision: the same [checkManifest], [checkRepo] without
    the progress line, and a [main] that visits the repositories one after
    the other and panics on the first error. *)
Module Part000.

Import manifest.

Section Validator.

Variable Unmarshal : string -> image -> image * option error.

Fixpoint decodeHistory (repoName : string) (history : list History)
         (images : list image) : IO (list image) :=
  match history with
  | [] => ret images
  | entry :: rest =>
      let '(im, err) := Unmarshal (V1Compatibility entry) zero_image in
      (match err with
       | Some e => print (finding repoName (unmarshalError e))
       | None => ret tt
       end ;;;
       decodeHistory repoName rest (images ++ [im]))%io
  end.

Fixpoint scanParent (parent : string) (candidates : list image) (id : string) : string :=
  match candidates with
  | [] => id
  | parentCandidate :: rest =>
      let id := ID parentCandidate in
      if String.eqb parent id then id else scanParent parent rest id
  end.

Definition checkParentLink (repoName : string) (images : list image)
           (i : nat) (image : image) : IO unit :=
  when (negb (String.eqb (Parent image) ""))
    (let id := scanParent (Parent image) (skipn i images) "" in
     when (negb (String.eqb (Parent image) id))
       (print (finding repoName (parentNotBelow (Parent (nth i images zero_image)))))).

Fixpoint parentLinks (repoName : string) (images : list image)
         (i : nat) (todo : list image) : IO unit :=
  match todo with
  | [] => ret tt
  | image :: rest =>
      (checkParentLink repoName images i image ;;;
       parentLinks repoName images (S i) rest)%io
  end.

Definition checkManifest (repoName : string) (mnfst : SignedManifest)
  : IO (option error) :=
  (when (Nat.eqb (length (FSLayers mnfst)) 0 || Nat.eqb (length (History_ mnfst)) 0)
     (print (finding repoName noLayers)) ;;;
   when (negb (Nat.eqb (length (FSLayers mnfst)) (length (History_ mnfst))))
     (print (finding repoName mismatched)) ;;;
   images <- decodeHistory repoName (History_ mnfst) [] ;;
   parentLinks repoName images 0 images ;;;
   ret None)%io.

End Validator.

Section Scan.

Variable Unmarshal : string -> image -> image * option error.
Variable registry : Namespace SignedManifest.

Fixpoint checkTags (manifests : ManifestService SignedManifest) (repoName : string)
         (tags : list string) : IO (option error) :=
  match tags with
  | [] => ret None
  | tag :: rest =>
      match GetByTag manifests tag with
      | Fail err =>
          ret (Some (Errorf ("unexpected error getting manifest by tag: " ++ Error err)))
      | Ok mnfst =>
          (err <- checkManifest Unmarshal repoName mnfst ;;
           match err with
           | Some e => ret (Some e)
           | None => checkTags manifests repoName rest
           end)%io
      end
  end.

Definition checkRepo (repoName : string) : IO (option error) :=
  match OpenRepository registry repoName with
  | Fail err => ret (Some (Errorf ("unexpected error getting repository: " ++ Error err)))
  | Ok repo =>
      match Manifests repo with
      | Fail err => ret (Some (Errorf ("unexpected error getting manifests: " ++ Error err)))
      | Ok manifests =>
          match Tags manifests with
          | Fail err => ret (Some (Errorf ("unexpected error getting tags: " ++ Error err)))
          | Ok tags => checkTags manifests repoName tags
          end
      end
  end.

(** [for _, repoName := range repos { if err := checkRepo(registry,
    repoName); err != nil { panic(err) } }].  Beside the outcome, the
    names [checkRepo] was called with. *)
Fixpoint scanRepos (repos : list string) : IO (list string * outcome) :=
  match repos with
  | [] => ret ([], Returned)
  | repoName :: rest =>
      (err <- checkRepo repoName ;;
       match err with
       | Some e => ret ([repoName], Panicked (Error e))
       | None =>
           r <- scanRepos rest ;;
           ret (repoName :: fst r, snd r)
       end)%io
  end.

End Scan.

Definition stripPlus (repoName : string) : string :=
  match repoName with
  | String c tail => if Ascii.eqb c "+"%char then tail else repoName
  | EmptyString => repoName
  end.

Fixpoint readRepos (lines : list string) (repos : list string) : list string :=
  match lines with
  | [] => repos
  | repoName :: rest =>
      if Nat.ltb 0 (String.length repoName)
      then readRepos rest (repos ++ [stripPlus repoName])
      else readRepos rest repos
  end.

Definition resolveRepos (env : Env SignedManifest) (reposPath : string) : resolution :=
  if negb (String.eqb reposPath "") then
    match openRepos env reposPath with
    | Fail err => Fatal ("could not open repos file: " ++ Error err)
    | Ok lines => Repos (readRepos lines [])
    end
  else
    let repos := repeat "" (Z.to_nat maxRepos) in
    let '(written, n, err) := Repositories (newRegistry env) (length repos) "" in
    let repos := fillBuffer written repos in
    match err with
    | Some e =>
        if negb (isEOF e) then Fatal ("unexpected error getting repo: " ++ Error e)
        else if (n =? maxRepos)%Z then Fatal "too many repositories"
        else slice_to repos n
    | None =>
        if (n =? maxRepos)%Z then Fatal "too many repositories"
        else slice_to repos n
    end.

(** [main]: what it prints, the repositories it visited and how it ends. *)
Definition main (Unmarshal : string -> image -> image * option error)
           (env : Env SignedManifest) (configPath reposPath : string)
  : IO (list string * outcome) :=
  if String.eqb configPath "" then
    (print (Stdout ("must supply a config file with -config" ++ nl)) ;;;
     print Usage ;;;
     ret ([], Returned))%io
  else
    match openConfig env configPath with
    | Some err => ret ([], Panicked ("error opening config file: " ++ Error err))
    | None =>
        match parseConfig env with
        | Some err => ret ([], Panicked ("error parsing config file: " ++ Error err))
        | None =>
            match createDriver env with
            | Some err => ret ([], Panicked ("error creating storage driver: " ++ Error err))
            | None =>
                match resolveRepos env reposPath with
                | Fatal msg => ret ([], Panicked msg)
                | Repos repos => scanRepos Unmarshal (newRegistry env) repos
                end
            end
        end
    end.

End Part000.

(** ** What the scan of the candidates visits

    [scanVisited parent candidates] lists the candidates the loop over
    [images[i:]] assigns to [parentCandidate], in order. *)
Fixpoint scanVisited (parent : string) (candidates : list image) : list image :=
  match candidates with
  | [] => []
  | parentCandidate :: rest =>
      if String.eqb parent (ID parentCandidate)
      then [parentCandidate]
      else parentCandidate :: scanVisited parent rest
  end.

(** The manifest of the older package with the fields of the newer one,
    and back. *)
Definition to_schema1_history (h : manifest.History) : schema1.History :=
  {| schema1.V1Compatibility := manifest.V1Compatibility h |}.

Definition to_schema1 (m : manifest.SignedManifest) : schema1.SignedManifest :=
  {| schema1.Name := manifest.Name m;
     schema1.Tag := manifest.Tag m;
     schema1.FSLayers :=
       map (fun l => {| schema1.BlobSum := manifest.BlobSum l |}) (manifest.FSLayers m);
     schema1.History_ := map to_schema1_history (manifest.History_ m) |}.

Definition to_manifest (m : schema1.SignedManifest) : manifest.SignedManifest :=
  {| manifest.Name := schema1.Name m;
     manifest.Tag := schema1.Tag m;
     manifest.FSLayers :=
       map (fun l => {| manifest.BlobSum := schema1.BlobSum l |}) (schema1.FSLayers m);
     manifest.History_ :=
       map (fun h => {| manifest.V1Compatibility := schema1.V1Compatibility h |})
           (schema1.History_ m) |}.

(** ** The parts of what [checkManifest] prints

    Named after the phases of [Main.checkManifest]: the two tests on the
    counts, the decoding of the history, and one block per position of
    [images]. *)
Section Phases.

Variable Unmarshal : string -> image -> image * option error.

Definition decoded (entry : schema1.History) : image * option error :=
  Unmarshal (schema1.V1Compatibility entry) zero_image.

(** [images] after the decoding loop. *)
Definition imagesOf (mnfst : schema1.SignedManifest) : list image :=
  map (fun entry => fst (decoded entry)) (schema1.History_ mnfst).

Definition layerFindings (repoName : string) (mnfst : schema1.SignedManifest) : list event :=
  (if Nat.eqb (length (schema1.FSLayers mnfst)) 0
      || Nat.eqb (length (schema1.History_ mnfst)) 0
   then [finding repoName noLayers] else [])
  ++ (if Nat.eqb (length (schema1.FSLayers mnfst)) (length (schema1.History_ mnfst))
      then [] else [finding repoName mismatched]).

Definition decodeFinding (repoName : string) (entry : schema1.History) : list event :=
  match snd (decoded entry) with
  | Some err => [finding repoName (unmarshalError err)]
  | None => []
  end.

Definition decodeFindings (repoName : string) (history : list schema1.History) : list event :=
  flat_map (decodeFinding repoName) history.

(** What the parent check prints for position [i]. *)
Definition parentBlock (repoName : string) (images : list image) (i : nat) : list event :=
  fst (Main.checkParentLink repoName images i (nth i images zero_image)).

(** The same for the positions [lo], ..., [lo + n - 1]. *)
Definition parentBlocks (repoName : string) (images : list image) (lo n : nat) : list event :=
  flat_map (parentBlock repoName images) (seq lo n).

End Phases.

(** [len(repoName) > 0] *)
Definition nonEmpty (line : string) : bool := negb (String.eqb line "").

(** ** Measures on the pool *)
Section PoolMeasure.

Variable Unmarshal : string -> image -> image * option error.
Variable registry : Namespace schema1.SignedManifest.

(** The lines a worker has still to print. *)
Definition pending (w : Main.worker) : list event :=
  match w with
  | Main.Running todo => todo
  | _ => []
  end.

(** The steps a worker has before it: it leaves ([Receiving]), or prints
    its lines, asks for the next name and leaves. *)
Definition weight (w : Main.worker) : nat :=
  match w with
  | Main.Receiving => 1
  | Main.Running todo => 2 + length todo
  | Main.Exited => 0
  end.

(** The steps a queued name costs: it is received, its lines are printed
    and the worker asks for the next name. *)
Definition cost (repoName : string) : nat :=
  2 + length (Main.visit Unmarshal registry repoName).

(** A bound on the steps the pool can still take. *)
Definition measure (s : Main.pool) : nat :=
  list_sum (map cost (Main.queue s))
  + list_sum (map weight (Main.workers s))
  + (if Main.closed s then 0 else 1).

(** What holds of every state the pool reaches from [Main.start repos]. *)
Definition invariant (repos : list string) (s : Main.pool) : Prop :=
  Main.visited s ++ Main.queue s = repos
  /\ Permutation (Main.out s ++ flat_map pending (Main.workers s))
                 (flat_map (Main.visit Unmarshal registry) (Main.visited s))
  /\ (Main.closed s = true -> Main.queue s = [])
  /\ (Main.closed s = false -> forallb (fun w => negb (Main.exited w)) (Main.workers s) = true)
  /\ length (Main.workers s) = Main.poolWidth.

End PoolMeasure.

(** ** Sample manifests *)
Module Sample.

(** The compatibility blob [{"id":<id>,"parent":<parent>}]. *)
Definition blob (id parent : string) : string :=
  json.obj (json.member "id" (json.quoted id) ++ "," ++ json.member "parent" (json.quoted parent)).

Definition entry (id parent : string) : schema1.History :=
  {| schema1.V1Compatibility := blob id parent |}.

Definition layer (sum : string) : schema1.FSLayer := {| schema1.BlobSum := sum |}.

Definition manifestOf (history : list schema1.History) : schema1.SignedManifest :=
  {| schema1.Name := "library/app";
     schema1.Tag := "latest";
     schema1.FSLayers := map (fun _ => layer "sha256:00") history;
     schema1.History_ := history |}.

(** Child first, each parent next, the root last. *)
Definition chain : schema1.SignedManifest :=
  manifestOf [entry "c" "b"; entry "b" "a"; entry "a" ""].

(** The last image names a parent that is not in the manifest. *)
Definition orphan : schema1.SignedManifest :=
  manifestOf [entry "b" "a"; entry "a" "z"].

(** The last image is its own parent. *)
Definition selfParent : schema1.SignedManifest :=
  manifestOf [entry "b" "a"; entry "a" "a"].

(** [{"parent":"p","id":1}]: valid JSON with a number where [ID] wants a
    string. *)
Definition mistyped : string :=
  json.obj (json.member "parent" (json.quoted "p") ++ "," ++ json.member "id" "1").


(** A registry in which the repository "broken" cannot be opened and every
    other repository has the one tag "latest" with the manifest [m]. *)
Definition registryOf {M : Type} (m : M) : Namespace M :=
  {| OpenRepository := fun repoName =>
       if String.eqb repoName "broken" then Fail (Errorf "repository unknown")
       else Ok {| Manifests := Ok {| Tags := Ok ["latest"];
                                     GetByTag := fun _ => Ok m |} |};
     Repositories := fun _ _ => (["library/app"; "broken"], 2%Z, Some EOF) |}.

(** A configuration that loads, and a repository-list file of four lines,
    whatever its path. *)
Definition reposLines : list string := ["broken"; ""; "+library/app"; "library/db"].

Definition envOf {M : Type} (m : M) : Env M :=
  {| openConfig := fun _ => None;
     parseConfig := None;
     createDriver := None;
     newRegistry := registryOf m;
     openRepos := fun _ => Ok reposLines |}.

End Sample.

(** ** The registry and the environment of the older revision, seen by
    the newer one *)

Definition map_result {A B : Type} (f : A -> B) (r : result A) : result B :=
  match r with
  | Ok a => Ok (f a)
  | Fail err => Fail err
  end.

Definition to_schema1_service (manifests : ManifestService manifest.SignedManifest)
  : ManifestService schema1.SignedManifest :=
  {| Tags := Tags manifests;
     GetByTag := fun tag => map_result to_schema1 (GetByTag manifests tag) |}.

Definition to_schema1_repository (repo : Repository manifest.SignedManifest)
  : Repository schema1.SignedManifest :=
  {| Manifests := map_result to_schema1_service (Manifests repo) |}.

Definition to_schema1_registry (registry : Namespace manifest.SignedManifest)
  : Namespace schema1.SignedManifest :=
  {| OpenRepository := fun repoName =>
       map_result to_schema1_repository (OpenRepository registry repoName);
     Repositories := Repositories registry |}.

Definition to_schema1_env (env : Env manifest.SignedManifest) : Env schema1.SignedManifest :=
  {| openConfig := openConfig env;
     parseConfig := parseConfig env;
     createDriver := createDriver env;
     newRegistry := to_schema1_registry (newRegistry env);
     openRepos := openRepos env |}.

(** The tags of a repository, when it opens, hands out its manifest
    service and lists its tags. *)
Definition listedTags {M : Type} (registry : Namespace M) (repoName : string)
  : option (list string) :=
  match OpenRepository registry repoName with
  | Fail _ => None
  | Ok repo =>
      match Manifests repo with
      | Fail _ => None
      | Ok manifests =>
          match Tags manifests with
          | Fail _ => None
          | Ok tags => Some tags
          end
      end
  end.

(** What the tag loop prints for the tags it gets through. *)
Definition tagFindings (Unmarshal : string -> image -> image * option error)
           (manifests : ManifestService schema1.SignedManifest)
           (repoName : string) (tags : list string) : list event :=
  flat_map (fun tag => match GetByTag manifests tag with
                       | Ok mnfst => fst (Main.checkManifest Unmarshal repoName mnfst)
                       | Fail _ => []
                       end) tags.

(** The line [checkRepo] of main.go prints on standard error once the tags
    are listed. *)
Definition progressLine (repoName : string) : event :=
  Stderr ("checking repo " ++ repoName ++ " (%!d(MISSING) tags)" ++ nl).

(** The message of [main] without [-config]. *)
Definition usageMessage : string := "must supply a config file with -config" ++ nl.

(** A line on standard error that reports the error of a visit: every
    error [checkRepo] returns begins with these words. *)
Definition isErrorLine (ev : event) : bool :=
  match ev with
  | Stderr line => String.prefix "unexpected error getting " line
  | _ => false
  end.

(** Whether [checkRepo] of main.go returns an error for a repository. *)
Definition fails (Unmarshal : string -> image -> image * option error)
           (registry : Namespace schema1.SignedManifest) (repoName : string) : bool :=
  match snd (Main.checkRepo Unmarshal registry repoName) with
  | Some _ => true
  | None => false
  end.

(** ** Order within a trace *)

(** [subsequence p l]: the elements of [p] occur in [l], in the order of
    [p]. *)
Inductive subsequence {A : Type} : list A -> list A -> Prop :=
| subsequence_nil : forall l, subsequence [] l
| subsequence_skip : forall p a l, subsequence p l -> subsequence p (a :: l)
| subsequence_take : forall p a l, subsequence p l -> subsequence (a :: p) (a :: l).

(** A repository the pool has received is tracked by a prefix of its
    lines that is already printed, in order, and a rest that one of the
    workers has still to print. *)
Definition tracked (Unmarshal : string -> image -> image * option error)
           (registry : Namespace schema1.SignedManifest)
           (s : Main.pool) (repoName : string) : Prop :=
  exists printed rest,
    Main.visit Unmarshal registry repoName = printed ++ rest
    /\ subsequence printed (Main.out s)
    /\ (rest = [] \/ In (Main.Running rest) (Main.workers s)).

(** The states the pool reaches in exactly [n] steps. *)
Inductive reachesIn (Unmarshal : string -> image -> image * option error)
          (registry : Namespace schema1.SignedManifest) (s : Main.pool)
  : nat -> Main.pool -> Prop :=
| reachesIn_here : reachesIn Unmarshal registry s 0 s
| reachesIn_step : forall n s1 s2,
    reachesIn Unmarshal registry s n s1 ->
    Main.step Unmarshal registry s1 s2 ->
    reachesIn Unmarshal registry s (S n) s2.

(** ** Schedules of the pool

    Which goroutine moves next is the scheduler's choice.  A schedule names
    the choices one after the other; [play] makes the moves, as long as
    each is possible in the state it meets. *)
Inductive action : Type :=
| Receive (i : nat)
| Print (i : nat)
| Next (i : nat)
| Close
| Leave (i : nat).

Definition setWorker (i : nat) (w : Main.worker) (ws : list Main.worker)
  : list Main.worker :=
  firstn i ws ++ w :: skipn (S i) ws.

Definition act (Unmarshal : string -> image -> image * option error)
           (registry : Namespace schema1.SignedManifest)
           (a : action) (s : Main.pool) : option Main.pool :=
  match a with
  | Receive i =>
      match Main.queue s, Main.closed s, nth_error (Main.workers s) i with
      | repoName :: q, false, Some Main.Receiving =>
          Some (Main.Pool q false
                  (setWorker i (Main.Running (Main.visit Unmarshal registry repoName))
                             (Main.workers s))
                  (Main.out s) (Main.visited s ++ [repoName]))
      | _, _, _ => None
      end
  | Print i =>
      match nth_error (Main.workers s) i with
      | Some (Main.Running (e :: todo)) =>
          Some (Main.Pool (Main.queue s) (Main.closed s)
                  (setWorker i (Main.Running todo) (Main.workers s))
                  (Main.out s ++ [e]) (Main.visited s))
      | _ => None
      end
  | Next i =>
      match nth_error (Main.workers s) i with
      | Some (Main.Running []) =>
          Some (Main.Pool (Main.queue s) (Main.closed s)
                  (setWorker i Main.Receiving (Main.workers s))
                  (Main.out s) (Main.visited s))
      | _ => None
      end
  | Close =>
      match Main.queue s, Main.closed s with
      | [], false => Some (Main.Pool [] true (Main.workers s) (Main.out s) (Main.visited s))
      | _, _ => None
      end
  | Leave i =>
      match Main.closed s, nth_error (Main.workers s) i with
      | true, Some Main.Receiving =>
          Some (Main.Pool (Main.queue s) true
                  (setWorker i Main.Exited (Main.workers s))
                  (Main.out s) (Main.visited s))
      | _, _ => None
      end
  end.

Fixpoint play (Unmarshal : string -> image -> image * option error)
         (registry : Namespace schema1.SignedManifest)
         (schedule : list action) (s : Main.pool) : option Main.pool :=
  match schedule with
  | [] => Some s
  | a :: rest =>
      match act Unmarshal registry a s with
      | Some s' => play Unmarshal registry rest s'
      | None => None
      end
  end.

(** The workers that are in a visit, and the workers that have left. *)
Definition running (w : Main.worker) : nat :=
  match w with
  | Main.Running _ => 1
  | _ => 0
  end.

Definition gone (w : Main.worker) : nat :=
  match w with
  | Main.Exited => 1
  | _ => 0
  end.


(** ** More sample manifests *)
Module MoreSamples.



(** An environment whose registry writes no name and reports the count
    -1 with [io.EOF]. *)
Definition negativeCountEnv : Env schema1.SignedManifest :=
  {| openConfig := fun _ => None;
     parseConfig := None;
     createDriver := None;
     newRegistry :=
       {| OpenRepository := fun _ => Fail (Errorf "repository unknown");
          Repositories := fun _ _ => ([], (-1)%Z, Some EOF) |};
     openRepos := fun _ => Ok [] |}.

(** Two workers take the two names "broken" and "library/app" of a
    registry whose manifests are [Sample.orphan]; the second prints its
    progress line, the first its error line, the second its finding; then
    both ask for the next name, [main] closes the channel and the 30
    workers leave. *)
Definition handOut : list action := [Receive 0; Receive 1; Print 1].

Definition threeNames : list string := ["broken"; "library/app"; "library/db"].

(** The pool on [threeNames] after [handOut]. *)
Definition handedOut : Main.pool :=
  Main.Pool ["library/db"] false
    (Main.Running [Stderr ("unexpected error getting repository: repository unknown" ++ nl)]
     :: Main.Running [Stdout ("library/app: parent not below in manifest (parent ID z)"
                              ++ nl)]
     :: repeat Main.Receiving 28)
    [Stderr ("checking repo library/app (%!d(MISSING) tags)" ++ nl)]
    ["broken"; "library/app"].

Definition interleaved : list action :=
  handOut ++ [Print 0; Print 1; Next 0; Next 1; Close] ++ map Leave (seq 0 30).

Definition interleavedEnd : Main.pool :=
  Main.Pool [] true (repeat Main.Exited 30)
    [Stderr ("checking repo library/app (%!d(MISSING) tags)" ++ nl);
     Stderr ("unexpected error getting repository: repository unknown" ++ nl);
     Stdout ("library/app: parent not below in manifest (parent ID z)" ++ nl)]
    ["broken"; "library/app"].

(** The root first, its child below it. *)
Definition rootFirst : schema1.SignedManifest :=
  Sample.manifestOf [Sample.entry "a" ""; Sample.entry "b" "a"].

(** [Sample.chain] under another name and tag and with other layers. *)
Definition chainRetagged : schema1.SignedManifest :=
  {| schema1.Name := "library/other";
     schema1.Tag := "v2";
     schema1.FSLayers := [Sample.layer "sha256:01"; Sample.layer "sha256:02";
                          Sample.layer "sha256:03"];
     schema1.History_ := schema1.History_ Sample.chain |}.

End MoreSamples.

(** * Properties *)

(** ** The output writer *)

Lemma fst_bind {A B} (c : IO A) (k : A -> IO B) :
  fst (bind c k) = fst c ++ fst (k (snd c)).
Proof.
  destruct c as [o a]; simpl. destruct (k a); reflexivity.
Qed.

Lemma snd_bind {A B} (c : IO A) (k : A -> IO B) :
  snd (bind c k) = snd (k (snd c)).
Proof.
  destruct c as [o a]; simpl. destruct (k a); reflexivity.
Qed.

Lemma bind_ext {A B} (c : IO A) (k k' : A -> IO B) :
  (forall a, k a = k' a) -> bind c k = bind c k'.
Proof.
  intros H. destruct c as [o a]; simpl. now rewrite H.
Qed.

Lemma IO_eta {A} (c : IO A) : c = (fst c, snd c).
Proof. destruct c; reflexivity. Qed.

(** ** Strings *)

Lemma append_cancel_l (a b c : string) : (a ++ b = a ++ c)%string -> b = c.
Proof.
  induction a as [|x a IH]; simpl; intros H; [exact H|].
  injection H as H. auto.
Qed.

Lemma length_append (a b : string) :
  String.length (a ++ b) = String.length a + String.length b.
Proof. induction a; simpl; congruence. Qed.

Lemma append_cancel_r (a b c : string) : (a ++ c = b ++ c)%string -> a = b.
Proof.
  revert b; induction a as [|x a IH]; intros [|y b] H; simpl in *.
  - reflexivity.
  - apply (f_equal String.length) in H. simpl in H. rewrite length_append in H. lia.
  - apply (f_equal String.length) in H. simpl in H. rewrite length_append in H. lia.
  - injection H as -> H. f_equal. auto.
Qed.

(** A finding determines its text. *)
Lemma finding_text (repoName t1 t2 : string) :
  finding repoName t1 = finding repoName t2 -> t1 = t2.
Proof.
  unfold finding. intros H. injection H as H.
  apply append_cancel_l in H. simpl in H. injection H as H.
  now apply append_cancel_r in H.
Qed.

(** ** The validator of [src/main.go] *)
Section ValidatorFacts.

Variable Unmarshal : string -> image -> image * option error.

Lemma decodeHistory_spec (repoName : string) (history : list schema1.History) :
  forall images,
    Main.decodeHistory Unmarshal repoName history images
    = (decodeFindings Unmarshal repoName history,
       images ++ map (fun entry => fst (decoded Unmarshal entry)) history).
Proof.
  induction history as [|entry rest IH]; intros images; simpl.
  - now rewrite app_nil_r.
  - unfold decodeFinding, decoded.
    destruct (Unmarshal (schema1.V1Compatibility entry) zero_image) as [im err].
    rewrite (IO_eta (bind _ _)), fst_bind, snd_bind, IH. simpl.
    rewrite <- app_assoc. simpl.
    destruct err; reflexivity.
Qed.

Lemma parentLinks_spec (repoName : string) (images : list image) :
  forall todo i,
    skipn i images = todo ->
    Main.parentLinks repoName images i todo
    = (parentBlocks repoName images i (length todo), tt).
Proof.
  induction todo as [|im rest IH]; intros i H; simpl.
  - reflexivity.
  - rewrite (IO_eta (bind _ _)), fst_bind, snd_bind.
    assert (Hn : nth i images zero_image = im).
    { rewrite <- (firstn_skipn i images) at 1. rewrite H.
      assert (Hi : i <= length images).
      { destruct (Nat.le_gt_cases i (length images)) as [?|Hgt]; [assumption|].
        rewrite skipn_all2 in H by lia. discriminate. }
      rewrite app_nth2; rewrite firstn_length_le by assumption; [|lia].
      now rewrite Nat.sub_diag. }
    assert (Hrest : skipn (S i) images = rest).
    { replace (S i) with (1 + i) by reflexivity.
      rewrite <- skipn_skipn, H. reflexivity. }
    rewrite (IH (S i) Hrest). simpl.
    unfold parentBlocks at 2. simpl. unfold parentBlock at 1. rewrite Hn.
    reflexivity.
Qed.

(** What [checkManifest] prints, phase by phase, and that it returns [nil]. *)
Lemma checkManifest_spec (repoName : string) (mnfst : schema1.SignedManifest) :
  Main.checkManifest Unmarshal repoName mnfst
  = (layerFindings repoName mnfst
     ++ decodeFindings Unmarshal repoName (schema1.History_ mnfst)
     ++ parentBlocks repoName (imagesOf Unmarshal mnfst) 0
          (length (imagesOf Unmarshal mnfst)),
     None).
Proof.
  unfold Main.checkManifest, layerFindings, imagesOf.
  rewrite (IO_eta (bind _ _)).
  repeat (rewrite ?fst_bind, ?snd_bind).
  rewrite decodeHistory_spec. simpl fst. simpl snd.
  rewrite parentLinks_spec by reflexivity. simpl.
  rewrite app_nil_r.
  destruct (Nat.eqb (length (schema1.FSLayers mnfst)) 0
            || Nat.eqb (length (schema1.History_ mnfst)) 0);
    destruct (Nat.eqb (length (schema1.FSLayers mnfst)) (length (schema1.History_ mnfst)));
    reflexivity.
Qed.

(** *** The scan of the candidates *)

Lemma scanParent_found (parent : string) (candidates : list image) :
  forall id,
    (exists c, In c candidates /\ ID c = parent) ->
    Main.scanParent parent candidates id = parent.
Proof.
  induction candidates as [|c rest IH]; intros id [c' [Hin Hid]].
  - contradiction.
  - simpl. destruct (String.eqb parent (ID c)) eqn:E.
    + symmetry. now apply String.eqb_eq.
    + apply IH. destruct Hin as [->|Hin].
      * apply String.eqb_neq in E. congruence.
      * now exists c'.
Qed.

Lemma last_cons_default {A} (l : list A) :
  forall a d, last (a :: l) d = last l a.
Proof.
  induction l as [|b l IH]; intros a d; [reflexivity|].
  change (last (a :: b :: l) d) with (last (b :: l) d).
  now rewrite !IH.
Qed.

Lemma scanParent_missed (parent : string) (candidates : list image) :
  forall id,
    (forall c, In c candidates -> ID c <> parent) ->
    Main.scanParent parent candidates id = last (map ID candidates) id.
Proof.
  induction candidates as [|c rest IH]; intros id H; [reflexivity|].
  simpl. destruct (String.eqb parent (ID c)) eqn:E.
  - apply String.eqb_eq in E. exfalso. apply (H c); [now left|congruence].
  - rewrite IH by (intros c' Hc'; apply H; now right).
    symmetry. apply (last_cons_default (map ID rest)).
Qed.

Lemma last_map_In {A B} (f : A -> B) (l : list A) (d : B) :
  l <> [] -> exists a, In a l /\ last (map f l) d = f a.
Proof.
  induction l as [|a l IH]; intros H; [congruence|].
  destruct l as [|b l].
  - exists a. split; [now left|reflexivity].
  - destruct IH as [x [Hx Hl]]; [discriminate|].
    exists x. split; [now right|exact Hl].
Qed.

(** Over a non-empty range the scan ends on the parent exactly when some
    candidate has it as its ID. *)
Lemma scanParent_iff (parent : string) (candidates : list image) (id : string) :
  candidates <> [] ->
  (Main.scanParent parent candidates id = parent
   <-> exists c, In c candidates /\ ID c = parent).
Proof.
  intros Hne. split; [|apply scanParent_found].
  intros H.
  destruct (existsb (fun c => String.eqb parent (ID c)) candidates) eqn:E.
  - apply existsb_exists in E as [c [Hin Hc]].
    exists c. split; [assumption|]. symmetry. now apply String.eqb_eq.
  - assert (Hall : forall c, In c candidates -> ID c <> parent).
    { intros c Hin Hc.
      assert (existsb (fun c => String.eqb parent (ID c)) candidates = true).
      { apply existsb_exists. exists c. split; [assumption|].
        apply String.eqb_eq. congruence. }
      congruence. }
    rewrite scanParent_missed in H by assumption.
    destruct (last_map_In ID candidates id Hne) as [a [Hin Ha]].
    exfalso. apply (Hall a Hin). congruence.
Qed.

Lemma scanParent_visited (parent : string) (candidates : list image) :
  forall id,
    Main.scanParent parent candidates id
    = last (map ID (scanVisited parent candidates)) id.
Proof.
  induction candidates as [|c rest IH]; intros id; [reflexivity|].
  simpl. destruct (String.eqb parent (ID c)) eqn:E; [reflexivity|].
  rewrite IH. symmetry. apply (last_cons_default (map ID (scanVisited parent rest))).
Qed.

Lemma last_default {A} (l : list A) (d d' : A) : l <> [] -> last l d = last l d'.
Proof.
  destruct l as [|a l]; [congruence|]. intros _.
  now rewrite !last_cons_default.
Qed.

Lemma last_map {A B} (f : A -> B) (l : list A) (d : B) (d' : A) :
  l <> [] -> last (map f l) d = f (last l d').
Proof.
  induction l as [|a l IH]; intros H; [congruence|].
  destruct l as [|b l]; [reflexivity|].
  change (last (map f (a :: b :: l)) d) with (last (map f (b :: l)) d).
  change (last (a :: b :: l) d') with (last (b :: l) d').
  apply IH. discriminate.
Qed.

Lemma scanVisited_nonempty (parent : string) (candidates : list image) :
  candidates <> [] -> scanVisited parent candidates <> [].
Proof.
  destruct candidates as [|c rest]; [congruence|]. intros _. simpl.
  destruct (String.eqb parent (ID c)); discriminate.
Qed.

(** The visited candidates are a prefix of the range; none but the last
    has the parent as its ID, and when the scan leaves candidates
    unvisited the last one has it. *)
Lemma scanVisited_prefix (parent : string) (candidates : list image) :
  exists unvisited,
    candidates = scanVisited parent candidates ++ unvisited
    /\ (forall c, In c (removelast (scanVisited parent candidates)) -> ID c <> parent)
    /\ (unvisited <> [] -> ID (last (scanVisited parent candidates) zero_image) = parent).
Proof.
  induction candidates as [|c rest [unvisited [Heq [Hnone Hlast]]]].
  - exists []. repeat split; simpl; try contradiction; congruence.
  - simpl. destruct (String.eqb parent (ID c)) eqn:E.
    + exists rest. repeat split; simpl; try contradiction.
      intros _. symmetry. now apply String.eqb_eq.
    + exists unvisited. split; [simpl; congruence|]. split.
      * intros x Hx. destruct (scanVisited parent rest) as [|y ys] eqn:V.
        { contradiction. }
        simpl in Hx. destruct Hx as [<-|Hx].
        { apply String.eqb_neq in E. congruence. }
        apply Hnone. exact Hx.
      * intros Hne. rewrite last_cons_default.
        assert (Hv : scanVisited parent rest <> []).
        { apply scanVisited_nonempty. intros ->. simpl in Heq.
          destruct unvisited; [congruence|discriminate]. }
        rewrite (last_default _ c zero_image Hv). now apply Hlast.
Qed.

(** *** One position of the parent check *)

Lemma nth_error_nth_default (images : list image) (i : nat) (im : image) :
  nth_error images i = Some im -> nth i images zero_image = im.
Proof. intros H. now apply nth_error_nth. Qed.

Lemma parentBlock_spec (repoName : string) (images : list image) (i : nat) (im : image) :
  nth_error images i = Some im ->
  Parent im <> "" ->
  parentBlock repoName images i
  = if String.eqb (Parent im) (Main.scanParent (Parent im) (skipn i images) "")
    then [] else [finding repoName (parentNotBelow (Parent im))].
Proof.
  intros Hi Hp. unfold parentBlock, Main.checkParentLink.
  rewrite (nth_error_nth_default _ _ _ Hi).
  assert (E0 : String.eqb (Parent im) "" = false) by now apply String.eqb_neq.
  rewrite E0. simpl.
  destruct (String.eqb (Parent im) (Main.scanParent _ _ _)); reflexivity.
Qed.

Lemma parentBlock_root (repoName : string) (images : list image) (i : nat) :
  Parent (nth i images zero_image) = "" ->
  parentBlock repoName images i = [].
Proof.
  intros Hp. unfold parentBlock, Main.checkParentLink. rewrite Hp. reflexivity.
Qed.

Lemma skipn_candidates (images : list image) (i : nat) (c : image) :
  In c (skipn i images) <-> exists j, i <= j /\ nth_error images j = Some c.
Proof.
  split.
  - intros H. apply In_nth_error in H as [k Hk].
    rewrite nth_error_skipn in Hk. exists (i + k). split; [lia|assumption].
  - intros [j [Hij Hj]]. apply nth_error_In with (n := j - i).
    rewrite nth_error_skipn. now replace (i + (j - i)) with j by lia.
Qed.

Lemma skipn_nonempty (images : list image) (i : nat) (im : image) :
  nth_error images i = Some im -> skipn i images <> [].
Proof.
  intros H E.
  assert (In im (skipn i images)) by (apply skipn_candidates; exists i; auto).
  rewrite E in *. contradiction.
Qed.

(** The block of position [i] is the finding or nothing, by whether a
    candidate at or after [i] has the parent as its ID. *)
Lemma parentBlock_cases (repoName : string) (images : list image) (i : nat) (im : image) :
  nth_error images i = Some im ->
  Parent im <> "" ->
  ((forall j c, i <= j -> nth_error images j = Some c -> ID c <> Parent im)
   /\ parentBlock repoName images i = [finding repoName (parentNotBelow (Parent im))])
  \/ ((exists j c, i <= j /\ nth_error images j = Some c /\ ID c = Parent im)
      /\ parentBlock repoName images i = []).
Proof.
  intros Hi Hp. rewrite (parentBlock_spec repoName _ _ _ Hi Hp).
  pose proof (scanParent_iff (Parent im) _ "" (skipn_nonempty _ _ _ Hi)) as Hscan.
  destruct (String.eqb (Parent im) _) eqn:E.
  - right. split; [|reflexivity].
    apply String.eqb_eq in E. symmetry in E. apply Hscan in E as [c [Hin Hc]].
    apply skipn_candidates in Hin as [j [Hij Hj]]. now exists j, c.
  - left. split; [|reflexivity].
    intros j c Hij Hj Hc. apply String.eqb_neq in E. apply E. symmetry.
    apply Hscan. exists c. split; [|assumption].
    apply skipn_candidates. now exists j.
Qed.

Lemma parentBlocks_split (repoName : string) (images : list image) (i n : nat) :
  i < n ->
  parentBlocks repoName images 0 n
  = parentBlocks repoName images 0 i ++ parentBlock repoName images i
    ++ parentBlocks repoName images (S i) (n - S i).
Proof.
  intros H. unfold parentBlocks.
  replace n with (i + S (n - S i)) at 1 by lia.
  rewrite seq_app, flat_map_app. simpl. reflexivity.
Qed.

End ValidatorFacts.

(** ** The validator of [src/unnamed/part_000] against the one of [src/main.go] *)
Section SameValidator.

Variable Unmarshal : string -> image -> image * option error.

Lemma scanParent_same (parent : string) (candidates : list image) :
  forall id,
    Part000.scanParent parent candidates id = Main.scanParent parent candidates id.
Proof.
  induction candidates as [|c rest IH]; intros id; simpl; [reflexivity|].
  now rewrite IH.
Qed.

Lemma checkParentLink_same (repoName : string) (images : list image) (i : nat) (im : image) :
  Part000.checkParentLink repoName images i im = Main.checkParentLink repoName images i im.
Proof.
  unfold Part000.checkParentLink, Main.checkParentLink.
  now rewrite scanParent_same.
Qed.

Lemma parentLinks_same (repoName : string) (images todo : list image) :
  forall i,
    Part000.parentLinks repoName images i todo = Main.parentLinks repoName images i todo.
Proof.
  induction todo as [|im rest IH]; intros i; simpl; [reflexivity|].
  now rewrite checkParentLink_same, IH.
Qed.

Lemma decodeHistory_same (repoName : string) (history : list manifest.History) :
  forall images,
    Part000.decodeHistory Unmarshal repoName history images
    = Main.decodeHistory Unmarshal repoName (map to_schema1_history history) images.
Proof.
  induction history as [|entry rest IH]; intros images; simpl; [reflexivity|].
  destruct (Unmarshal (manifest.V1Compatibility entry) zero_image) as [im err].
  now rewrite IH.
Qed.

Lemma checkManifest_same (repoName : string) (mnfst : manifest.SignedManifest) :
  Part000.checkManifest Unmarshal repoName mnfst
  = Main.checkManifest Unmarshal repoName (to_schema1 mnfst).
Proof.
  unfold Part000.checkManifest, Main.checkManifest, to_schema1. simpl.
  rewrite !length_map.
  rewrite decodeHistory_same.
  apply bind_ext; intros _. apply bind_ext; intros _.
  apply bind_ext; intros images.
  now rewrite parentLinks_same.
Qed.

Lemma to_schema1_to_manifest (mnfst : schema1.SignedManifest) :
  to_schema1 (to_manifest mnfst) = mnfst.
Proof.
  destruct mnfst as [name tag layers history]. unfold to_schema1, to_manifest. simpl.
  rewrite !map_map. f_equal.
  - rewrite <- (map_id layers) at 2. apply map_ext. now intros [sum].
  - rewrite <- (map_id history) at 2. apply map_ext. now intros [v1].
Qed.

End SameValidator.

(** ** The decoder *)









(** ** Claims about the validator *)
Section ValidatorClaims.

Variable Unmarshal : string -> image -> image * option error.

Lemma decodeFindings_In (repoName : string) (history : list schema1.History) (ev : event) :
  In ev (decodeFindings Unmarshal repoName history) ->
  exists err, ev = finding repoName (unmarshalError err).
Proof.
  unfold decodeFindings. intros H. apply in_flat_map in H as [entry [_ H]].
  unfold decodeFinding in H. destruct (snd (decoded Unmarshal entry)) as [err|].
  - destruct H as [<-|[]]. now exists err.
  - contradiction.
Qed.

Lemma parentBlock_In (repoName : string) (images : list image) (i : nat) (ev : event) :
  In ev (parentBlock repoName images i) ->
  exists parent, ev = finding repoName (parentNotBelow parent).
Proof.
  unfold parentBlock, Main.checkParentLink.
  destruct (negb (String.eqb (Parent (nth i images zero_image)) "")); simpl; [|contradiction].
  destruct (negb (String.eqb _ _)); simpl; [|contradiction].
  intros [<-|[]]. now eexists.
Qed.

Lemma parentBlocks_In (repoName : string) (images : list image) (lo n : nat) (ev : event) :
  In ev (parentBlocks repoName images lo n) ->
  exists parent, ev = finding repoName (parentNotBelow parent).
Proof.
  unfold parentBlocks. intros H. apply in_flat_map in H as [i [_ H]].
  now apply parentBlock_In in H.
Qed.

(** A finding about the counts is printed by the tests on the counts and
    by nothing else. *)
Lemma count_finding_source (repoName text : string) (mnfst : schema1.SignedManifest) :
  text = noLayers \/ text = mismatched ->
  In (finding repoName text) (fst (Main.checkManifest Unmarshal repoName mnfst)) ->
  In (finding repoName text) (layerFindings repoName mnfst).
Proof.
  intros Ht. rewrite checkManifest_spec. simpl fst.
  rewrite !in_app_iff. intros [H|[H|H]]; [exact H| |].
  - apply decodeFindings_In in H as [err H]. apply finding_text in H.
    destruct Ht; subst text; discriminate.
  - apply parentBlocks_In in H as [parent H]. apply finding_text in H.
    destruct Ht; subst text; discriminate.
Qed.

(** C5: "no layers present" is printed exactly when the layer count or the
    history count is 0, "mismatched layers and history" exactly when the
    two counts differ; a manifest with no layer and no history entry gets
    the first and not the second.  The two findings, when printed, come
    first and in this order. *)
Theorem count_findings_iff (repoName : string) (mnfst : schema1.SignedManifest) :
  let printed := fst (Main.checkManifest Unmarshal repoName mnfst) in
  let layers := length (schema1.FSLayers mnfst) in
  let entries := length (schema1.History_ mnfst) in
  (In (finding repoName noLayers) printed <-> layers = 0 \/ entries = 0)
  /\ (In (finding repoName mismatched) printed <-> layers <> entries)
  /\ (exists rest, printed = layerFindings repoName mnfst ++ rest)
  /\ (layers = 0 /\ entries = 0 ->
      In (finding repoName noLayers) printed /\ ~ In (finding repoName mismatched) printed).
Proof.
  intros printed layers entries.
  assert (Hno : In (finding repoName noLayers) printed <-> layers = 0 \/ entries = 0).
  { split.
    - intros H. apply count_finding_source in H; [|now left].
      unfold layerFindings in H. fold layers entries in H.
      destruct (Nat.eqb layers 0) eqn:E1; [left; now apply Nat.eqb_eq|].
      destruct (Nat.eqb entries 0) eqn:E2; [right; now apply Nat.eqb_eq|].
      simpl in H. destruct (Nat.eqb layers entries); simpl in H.
      + contradiction.
      + destruct H as [H|[]]. apply finding_text in H. discriminate.
    - intros H. unfold printed. rewrite checkManifest_spec. simpl fst.
      apply in_or_app. left. unfold layerFindings. fold layers entries.
      assert (E : Nat.eqb layers 0 || Nat.eqb entries 0 = true).
      { apply orb_true_iff. destruct H as [H|H]; [left|right]; now apply Nat.eqb_eq. }
      rewrite E. now left. }
  assert (Hmis : In (finding repoName mismatched) printed <-> layers <> entries).
  { split.
    - intros H. apply count_finding_source in H; [|now right].
      unfold layerFindings in H. fold layers entries in H.
      destruct (Nat.eqb layers entries) eqn:E; [|now apply Nat.eqb_neq].
      rewrite app_nil_r in H.
      destruct (Nat.eqb layers 0 || Nat.eqb entries 0); [|contradiction].
      destruct H as [H|[]]. apply finding_text in H. discriminate.
    - intros H. unfold printed. rewrite checkManifest_spec. simpl fst.
      apply in_or_app. left. unfold layerFindings. fold layers entries.
      apply Nat.eqb_neq in H. rewrite H. apply in_or_app. right. now left. }
  split; [exact Hno|]. split; [exact Hmis|]. split.
  - unfold printed. rewrite checkManifest_spec. simpl fst. eauto.
  - intros [H1 H2]. split.
    + apply Hno. now left.
    + rewrite Hmis. intros H. apply H. congruence.
Qed.

(** C1: for a decoded image at position [i] with a non-empty [Parent],
    validate prints "parent not below in manifest (parent ID <Parent>)" for
    position [i] exactly when no image at a position [>= i] has that
    parent as its ID, and prints nothing for it exactly when one has.  The
    scan visits a prefix of [images[i:]] in order and stops at the first
    candidate whose ID is the parent.  The block of position [i] stands in
    the output after the blocks of the earlier positions; the loop body of
    part_000 prints the same block. *)
Theorem parent_finding_iff_no_candidate
  (repoName : string) (mnfst : schema1.SignedManifest) (i : nat) (im : image) :
  nth_error (imagesOf Unmarshal mnfst) i = Some im ->
  Parent im <> "" ->
  let images := imagesOf Unmarshal mnfst in
  let candidates := skipn i images in
  let visited := scanVisited (Parent im) candidates in
  fst (Main.checkManifest Unmarshal repoName mnfst)
  = layerFindings repoName mnfst
    ++ decodeFindings Unmarshal repoName (schema1.History_ mnfst)
    ++ parentBlocks repoName images 0 i
    ++ parentBlock repoName images i
    ++ parentBlocks repoName images (S i) (length images - S i)
  /\ (parentBlock repoName images i = [finding repoName (parentNotBelow (Parent im))]
      <-> forall j c, i <= j -> nth_error images j = Some c -> ID c <> Parent im)
  /\ (parentBlock repoName images i = []
      <-> exists j c, i <= j /\ nth_error images j = Some c /\ ID c = Parent im)
  /\ ((forall j c, i <= j -> nth_error images j = Some c -> ID c <> Parent im) ->
      In (finding repoName (parentNotBelow (Parent im)))
         (fst (Main.checkManifest Unmarshal repoName mnfst)))
  /\ (exists unvisited,
        candidates = visited ++ unvisited
        /\ (forall c, In c (removelast visited) -> ID c <> Parent im)
        /\ (unvisited <> [] -> ID (last visited zero_image) = Parent im))
  /\ Main.scanParent (Parent im) candidates "" = ID (last visited zero_image)
  /\ fst (Part000.checkParentLink repoName images i im) = parentBlock repoName images i
  /\ Part000.scanParent (Parent im) candidates "" = Main.scanParent (Parent im) candidates "".
Proof.
  intros Hi Hp images candidates visited.
  assert (Hlen : i < length images).
  { apply nth_error_Some. unfold images. rewrite Hi. discriminate. }
  pose proof (parentBlock_cases repoName images i im Hi Hp) as Hcases.
  assert (Hout : fst (Main.checkManifest Unmarshal repoName mnfst)
                 = layerFindings repoName mnfst
                   ++ decodeFindings Unmarshal repoName (schema1.History_ mnfst)
                   ++ parentBlocks repoName images 0 i
                   ++ parentBlock repoName images i
                   ++ parentBlocks repoName images (S i) (length images - S i)).
  { rewrite checkManifest_spec. simpl fst. fold images.
    now rewrite (parentBlocks_split repoName images i (length images) Hlen). }
  split; [exact Hout|]. split; [|split; [|split; [|split; [|split; [|split]]]]].
  - destruct Hcases as [[Hall Hb]|[[j [c [Hij [Hj Hc]]]] Hb]]; rewrite Hb.
    + split; auto.
    + split; [discriminate|]. intros H. exfalso. exact (H j c Hij Hj Hc).
  - destruct Hcases as [[Hall Hb]|[Hex Hb]]; rewrite Hb.
    + split; [discriminate|]. intros [j [c [Hij [Hj Hc]]]]. exfalso.
      exact (Hall j c Hij Hj Hc).
    + split; auto.
  - intros Hall. rewrite Hout.
    destruct Hcases as [[_ Hb]|[[j [c [Hij [Hj Hc]]]] _]].
    + rewrite Hb, !in_app_iff. right. right. right. left. now left.
    + exfalso. exact (Hall j c Hij Hj Hc).
  - exact (scanVisited_prefix (Parent im) candidates).
  - rewrite scanParent_visited. apply last_map.
    apply scanVisited_nonempty. exact (skipn_nonempty images i im Hi).
  - rewrite checkParentLink_same. unfold parentBlock.
    now rewrite (nth_error_nth_default images i im Hi).
  - apply scanParent_same.
Qed.

(** C9: an image whose non-empty [Parent] is its own ID gets no finding,
    at the last position too: position [i] is the first candidate, and the
    scan stops on it.  At the last position this is the only way to get no
    finding for a non-empty [Parent].  The loop body of part_000 prints the
    same block. *)
Theorem own_id_is_a_candidate
  (repoName : string) (mnfst : schema1.SignedManifest) (i : nat) (im : image) :
  nth_error (imagesOf Unmarshal mnfst) i = Some im ->
  Parent im <> "" ->
  let images := imagesOf Unmarshal mnfst in
  fst (Main.checkManifest Unmarshal repoName mnfst)
  = layerFindings repoName mnfst
    ++ decodeFindings Unmarshal repoName (schema1.History_ mnfst)
    ++ parentBlocks repoName images 0 i
    ++ parentBlock repoName images i
    ++ parentBlocks repoName images (S i) (length images - S i)
  /\ skipn i images = im :: skipn (S i) images
  /\ (Parent im = ID im ->
      parentBlock repoName images i = []
      /\ scanVisited (Parent im) (skipn i images) = [im])
  /\ (S i = length images ->
      (parentBlock repoName images i = [] <-> Parent im = ID im))
  /\ fst (Part000.checkParentLink repoName images i im) = parentBlock repoName images i.
Proof.
  intros Hi Hp images. fold images in Hi.
  assert (Hlen : i < length images).
  { apply nth_error_Some. rewrite Hi. discriminate. }
  assert (Hskip : skipn i images = im :: skipn (S i) images).
  { clear Hp Hlen. revert i Hi. generalize images as l.
    induction l as [|a l IH]; intros [|i] Hi; simpl in *; try discriminate.
    - now injection Hi as ->.
    - now apply IH. }
  pose proof (parentBlock_cases repoName images i im Hi Hp) as Hcases.
  split; [|split; [exact Hskip|split; [|split]]].
  - rewrite checkManifest_spec. simpl fst. fold images.
    now rewrite (parentBlocks_split repoName images i (length images) Hlen).
  - intros Hself. split.
    + destruct Hcases as [[Hall _]|[_ Hb]]; [|exact Hb].
      exfalso. apply (Hall i im (Nat.le_refl i) Hi). congruence.
    + rewrite Hskip. simpl. rewrite Hself, String.eqb_refl. reflexivity.
  - intros Hlast. split.
    + intros Hb. destruct Hcases as [[_ Hb']|[[j [c [Hij [Hj Hc]]]] _]]; [congruence|].
      assert (j < length images) by (apply nth_error_Some; congruence).
      assert (j = i) by lia. subst j. congruence.
    + intros Hself. destruct Hcases as [[Hall _]|[_ Hb]]; [|exact Hb].
      exfalso. apply (Hall i im (Nat.le_refl i) Hi). congruence.
  - rewrite checkParentLink_same. unfold parentBlock.
    now rewrite (nth_error_nth_default images i im Hi).
Qed.

Lemma flat_map_nil {A B} (f : A -> list B) (l : list A) :
  (forall x, In x l -> f x = []) -> flat_map f l = [].
Proof.
  induction l as [|a l IH]; intros H; simpl; [reflexivity|].
  rewrite (H a) by now left. apply IH. intros x Hx. apply H. now right.
Qed.

Lemma imagesOf_length (mnfst : schema1.SignedManifest) :
  length (imagesOf Unmarshal mnfst) = length (schema1.History_ mnfst).
Proof. unfold imagesOf. apply length_map. Qed.

(** C4: equal non-zero counts, every entry decodes, each image's parent is
    the ID of the next image and the last image has no parent: validate
    prints nothing (and returns [nil]). *)
Theorem linear_chain_no_findings (repoName : string) (mnfst : schema1.SignedManifest) :
  length (schema1.FSLayers mnfst) = length (schema1.History_ mnfst) ->
  length (schema1.History_ mnfst) <> 0 ->
  (forall entry, In entry (schema1.History_ mnfst) -> snd (decoded Unmarshal entry) = None) ->
  (forall i a b,
      nth_error (imagesOf Unmarshal mnfst) i = Some a ->
      nth_error (imagesOf Unmarshal mnfst) (S i) = Some b ->
      Parent a = ID b) ->
  (forall a,
      nth_error (imagesOf Unmarshal mnfst) (length (imagesOf Unmarshal mnfst) - 1) = Some a ->
      Parent a = "") ->
  Main.checkManifest Unmarshal repoName mnfst = ([], None).
Proof.
  intros Hcount Hnonzero Hdecode Hchain Hroot.
  rewrite checkManifest_spec. f_equal.
  assert (Hlayers : layerFindings repoName mnfst = []).
  { unfold layerFindings. rewrite Hcount, Nat.eqb_refl.
    apply Nat.eqb_neq in Hnonzero. now rewrite Hnonzero. }
  assert (Hdec : decodeFindings Unmarshal repoName (schema1.History_ mnfst) = []).
  { apply flat_map_nil. intros entry Hin. unfold decodeFinding.
    now rewrite (Hdecode entry Hin). }
  rewrite Hlayers, Hdec. simpl.
  apply flat_map_nil. intros i Hi. apply in_seq in Hi as [_ Hi]. simpl in Hi.
  destruct (nth_error (imagesOf Unmarshal mnfst) i) as [a|] eqn:Ha;
    [|apply nth_error_None in Ha; lia].
  destruct (String.eqb (Parent a) "") eqn:Hp.
  - apply parentBlock_root. apply String.eqb_eq in Hp.
    now rewrite (nth_error_nth_default _ _ _ Ha).
  - apply String.eqb_neq in Hp.
    destruct (Nat.eq_dec (S i) (length (imagesOf Unmarshal mnfst))) as [Hlast|Hmore].
    + exfalso. apply Hp, Hroot. rewrite <- Hlast. simpl. now rewrite Nat.sub_0_r.
    + destruct (nth_error (imagesOf Unmarshal mnfst) (S i)) as [b|] eqn:Hb;
        [|apply nth_error_None in Hb; lia].
      destruct (parentBlock_cases repoName _ _ _ Ha Hp) as [[Hall _]|[_ Hblock]];
        [|exact Hblock].
      exfalso. apply (Hall (S i) b); [lia|exact Hb|]. symmetry. now apply Hchain with i.
Qed.


(** C10: on the same repository name and the same manifest the validator
    of part_000 and the validator of main.go print the same findings in
    the same order, and both return [nil]. *)
Theorem validators_agree (repoName : string) :
  (forall mnfst : manifest.SignedManifest,
      fst (Part000.checkManifest Unmarshal repoName mnfst)
      = fst (Main.checkManifest Unmarshal repoName (to_schema1 mnfst))
      /\ snd (Part000.checkManifest Unmarshal repoName mnfst) = None
      /\ snd (Main.checkManifest Unmarshal repoName (to_schema1 mnfst)) = None)
  /\ (forall mnfst : schema1.SignedManifest,
        Main.checkManifest Unmarshal repoName mnfst
        = Part000.checkManifest Unmarshal repoName (to_manifest mnfst)).
Proof.
  split.
  - intros mnfst. rewrite checkManifest_same, checkManifest_spec. auto.
  - intros mnfst. now rewrite checkManifest_same, to_schema1_to_manifest.
Qed.

End ValidatorClaims.

(** ** The decoder on sample blobs *)

Example unmarshal_both_fields :
  json.Unmarshal (Sample.blob "a" "b") zero_image = (Image "a" "b", None).
Proof. vm_compute. reflexivity. Qed.

(** A key matches its field up to case, white space between tokens is
    skipped, and an unknown key is passed over with its value. *)
Example unmarshal_folds_keys :
  json.Unmarshal
    (json.obj (json.member "ID" (json.quoted "a") ++ " , "
               ++ json.member "other" "[1, {}, [true]]" ++ ","
               ++ json.member "Parent" (json.quoted "b")))
    zero_image
  = (Image "a" "b", None).
Proof. vm_compute. reflexivity. Qed.

(** [null] leaves the image as it is and is no error. *)
Example unmarshal_null :
  json.Unmarshal "null" zero_image = (zero_image, None)
  /\ json.Unmarshal (json.obj (json.member "id" "null")) (Image "a" "b")
     = (Image "a" "b", None).
Proof. vm_compute. split; reflexivity. Qed.

(** Input that is not JSON is refused with the scanner's message, the
    end of the input being scanned as a space; JSON that is not an object
    is refused with a type error. *)
Example unmarshal_rejects :
  json.Unmarshal "" zero_image
  = (zero_image, Some (json.syntaxError "unexpected end of JSON input"))
  /\ json.Unmarshal "{" zero_image
     = (zero_image, Some (json.syntaxError "unexpected end of JSON input"))
  /\ json.Unmarshal "{} {}" zero_image
     = (zero_image, Some (json.syntaxError "invalid character '{' after top-level value"))
  /\ json.Unmarshal "01" zero_image
     = (zero_image, Some (json.syntaxError "invalid character '1' after top-level value"))
  /\ json.Unmarshal "{,}" zero_image
     = (zero_image,
        Some (json.syntaxError
                "invalid character ',' looking for beginning of object key string"))
  /\ json.Unmarshal "nope" zero_image
     = (zero_image,
        Some (json.syntaxError "invalid character 'o' in literal null (expecting 'u')"))
  /\ json.Unmarshal "-" zero_image
     = (zero_image, Some (json.syntaxError "invalid character ' ' in numeric literal"))
  /\ json.Unmarshal "[1,2]" zero_image
     = (zero_image, Some (json.topLevelTypeError "array")).
Proof. vm_compute. repeat split; reflexivity. Qed.

(** A value of the wrong type is skipped, the first such error is kept,
    and the other fields are decoded. *)
Example unmarshal_mistyped :
  json.Unmarshal Sample.mistyped zero_image
  = (Image "" "p", Some (json.fieldTypeError "number" json.FieldID))
  /\ Error (json.fieldTypeError "number" json.FieldID)
     = "json: cannot unmarshal number into Go struct field image.id of type string".
Proof. vm_compute. split; reflexivity. Qed.

(** ** The validator on the sample manifests *)

Lemma orphan_images :
  imagesOf json.Unmarshal Sample.orphan = [Image "b" "a"; Image "a" "z"].
Proof. vm_compute. reflexivity. Defined.

Lemma selfParent_images :
  imagesOf json.Unmarshal Sample.selfParent = [Image "b" "a"; Image "a" "a"].
Proof. vm_compute. reflexivity. Defined.

Lemma chain_images :
  imagesOf json.Unmarshal Sample.chain = [Image "c" "b"; Image "b" "a"; Image "a" ""].
Proof. vm_compute. reflexivity. Defined.

(** The last image of [Sample.orphan] names the parent "z", no image at or
    after it has that ID, and the finding is printed for it. *)
Lemma parent_finding_on_orphan :
  nth_error (imagesOf json.Unmarshal Sample.orphan) 1 = Some (Image "a" "z")
  /\ Parent (Image "a" "z") <> ""
  /\ parentBlock "library/app" (imagesOf json.Unmarshal Sample.orphan) 1
     = [finding "library/app" (parentNotBelow "z")].
Proof.
  assert (H1 : nth_error (imagesOf json.Unmarshal Sample.orphan) 1 = Some (Image "a" "z")).
  { rewrite orphan_images. reflexivity. }
  assert (H2 : Parent (Image "a" "z") <> "") by discriminate.
  split; [exact H1|]. split; [exact H2|].
  destruct (parent_finding_iff_no_candidate json.Unmarshal "library/app"
              Sample.orphan 1 (Image "a" "z") H1 H2) as [_ [[_ Hprinted] _]].
  apply Hprinted.
  rewrite orphan_images. intros [|[|j]] c Hle Hc; simpl in Hc.
  - inversion Hle.
  - injection Hc as <-. discriminate.
  - destruct j; discriminate.
Defined.

(** The last image of [Sample.selfParent] is its own parent and gets no
    finding. *)
Lemma own_id_on_selfParent :
  nth_error (imagesOf json.Unmarshal Sample.selfParent) 1 = Some (Image "a" "a")
  /\ Parent (Image "a" "a") <> ""
  /\ parentBlock "library/app" (imagesOf json.Unmarshal Sample.selfParent) 1 = [].
Proof.
  assert (H1 : nth_error (imagesOf json.Unmarshal Sample.selfParent) 1
               = Some (Image "a" "a")).
  { rewrite selfParent_images. reflexivity. }
  assert (H2 : Parent (Image "a" "a") <> "") by discriminate.
  split; [exact H1|]. split; [exact H2|].
  destruct (own_id_is_a_candidate json.Unmarshal "library/app"
              Sample.selfParent 1 (Image "a" "a") H1 H2)
    as [_ [_ [Hself _]]].
  apply Hself. reflexivity.
Defined.

(** [Sample.chain] meets the conditions of the linear chain and gets no
    finding. *)
Lemma no_findings_on_chain :
  length (schema1.FSLayers Sample.chain) = length (schema1.History_ Sample.chain)
  /\ length (schema1.History_ Sample.chain) <> 0
  /\ (forall entry, In entry (schema1.History_ Sample.chain) ->
                    snd (decoded json.Unmarshal entry) = None)
  /\ (forall i a b,
         nth_error (imagesOf json.Unmarshal Sample.chain) i = Some a ->
         nth_error (imagesOf json.Unmarshal Sample.chain) (S i) = Some b ->
         Parent a = ID b)
  /\ (forall a,
         nth_error (imagesOf json.Unmarshal Sample.chain)
                   (length (imagesOf json.Unmarshal Sample.chain) - 1) = Some a ->
         Parent a = "")
  /\ Main.checkManifest json.Unmarshal "library/app" Sample.chain = ([], None).
Proof.
  assert (H1 : length (schema1.FSLayers Sample.chain)
               = length (schema1.History_ Sample.chain)) by reflexivity.
  assert (H2 : length (schema1.History_ Sample.chain) <> 0) by discriminate.
  assert (H3 : forall entry, In entry (schema1.History_ Sample.chain) ->
                             snd (decoded json.Unmarshal entry) = None).
  { intros entry [<-|[<-|[<-|[]]]]; vm_compute; reflexivity. }
  assert (H4 : forall i a b,
             nth_error (imagesOf json.Unmarshal Sample.chain) i = Some a ->
             nth_error (imagesOf json.Unmarshal Sample.chain) (S i) = Some b ->
             Parent a = ID b).
  { rewrite chain_images. intros [|[|[|i]]] a b Ha Hb; simpl in Ha, Hb;
      try discriminate; injection Ha as <-; injection Hb as <-; reflexivity. }
  assert (H5 : forall a,
             nth_error (imagesOf json.Unmarshal Sample.chain)
                       (length (imagesOf json.Unmarshal Sample.chain) - 1) = Some a ->
             Parent a = "").
  { rewrite chain_images. simpl. intros a Ha. injection Ha as <-. reflexivity. }
  repeat (split; [assumption|]).
  exact (linear_chain_no_findings json.Unmarshal "library/app" Sample.chain H1 H2 H3 H4 H5).
Defined.


(** ** The worker pool of [src/main.go] *)
Section PoolFacts.

Variable Unmarshal : string -> image -> image * option error.
Variable registry : Namespace schema1.SignedManifest.

Lemma list_sum_weight_app (ws1 ws2 : list Main.worker) (w : Main.worker) :
  list_sum (map weight (ws1 ++ w :: ws2))
  = list_sum (map weight ws1) + weight w + list_sum (map weight ws2).
Proof.
  rewrite map_app, list_sum_app. simpl. lia.
Qed.

Lemma pending_app (ws1 ws2 : list Main.worker) (w : Main.worker) :
  flat_map pending (ws1 ++ w :: ws2)
  = flat_map pending ws1 ++ pending w ++ flat_map pending ws2.
Proof. now rewrite flat_map_app. Qed.

Lemma not_exited_app (ws1 ws2 : list Main.worker) (w : Main.worker) :
  forallb (fun w => negb (Main.exited w)) (ws1 ++ w :: ws2)
  = forallb (fun w => negb (Main.exited w)) ws1
    && (negb (Main.exited w) && forallb (fun w => negb (Main.exited w)) ws2).
Proof. now rewrite forallb_app. Qed.

(** Every step takes the bound down. *)
Lemma step_measure (s s' : Main.pool) :
  Main.step Unmarshal registry s s' -> measure Unmarshal registry s' < measure Unmarshal registry s.
Proof.
  intros H. destruct H; unfold measure; simpl;
    rewrite ?list_sum_weight_app; unfold cost; simpl; lia.
Qed.

Lemma start_invariant (repos : list string) :
  invariant Unmarshal registry repos (Main.start repos).
Proof.
  unfold invariant, Main.start. simpl. repeat split; try reflexivity; try discriminate.
Qed.

Lemma step_invariant (repos : list string) (s s' : Main.pool) :
  invariant Unmarshal registry repos s -> Main.step Unmarshal registry s s' ->
  invariant Unmarshal registry repos s'.
Proof.
  unfold invariant. intros [Hq [Hp [Hc [He Hl]]]] H.
  destruct H; simpl in *;
    rewrite ?pending_app, ?not_exited_app, ?length_app in *; simpl in *.
  - repeat split; auto; try discriminate.
    + now rewrite <- app_assoc.
    + rewrite flat_map_app. simpl. rewrite app_nil_r.
      rewrite !app_assoc. apply Permutation_trans with
        ((o ++ flat_map pending ws1 ++ flat_map pending ws2) ++ Main.visit Unmarshal registry repoName).
      * rewrite <- !app_assoc. apply Permutation_app_head, Permutation_app_head.
        apply Permutation_app_comm.
      * apply Permutation_app_tail. now rewrite app_assoc in Hp |- *.
  - repeat split; auto.
    rewrite <- Hp. rewrite <- !app_assoc. apply Permutation_app_head.
    simpl. change (e :: flat_map pending ws1 ++ e :: todo ++ flat_map pending ws2)
      with ((e :: flat_map pending ws1) ++ e :: todo ++ flat_map pending ws2).
    apply Permutation_cons_app. reflexivity.
  - repeat split; auto.
  - repeat split; auto; discriminate.
  - repeat split; auto; discriminate.
Qed.

Lemma reaches_invariant (repos : list string) (s : Main.pool) :
  Main.reaches Unmarshal registry (Main.start repos) s -> invariant Unmarshal registry repos s.
Proof.
  induction 1 as [|s1 s2 _ IH Hstep].
  - apply start_invariant.
  - exact (step_invariant repos s1 s2 IH Hstep).
Qed.

(** Some worker is running, or some worker is receiving, or all have
    left. *)
Lemma workers_cases (ws : list Main.worker) :
  (exists ws1 todo ws2, ws = ws1 ++ Main.Running todo :: ws2)
  \/ (exists ws1 ws2, ws = ws1 ++ Main.Receiving :: ws2)
  \/ forallb Main.exited ws = true.
Proof.
  induction ws as [|w ws IH].
  - right. right. reflexivity.
  - destruct w as [|todo|].
    + right. left. now exists [], ws.
    + left. now exists [], todo, ws.
    + destruct IH as [[ws1 [todo [ws2 ->]]]|[[ws1 [ws2 ->]]|Hall]].
      * left. now exists (Main.Exited :: ws1), todo, ws2.
      * right. left. now exists (Main.Exited :: ws1), ws2.
      * right. right. exact Hall.
Qed.

(** A state of the pool that has not finished can take a step. *)
Lemma pool_progress (repos : list string) (s : Main.pool) :
  invariant Unmarshal registry repos s ->
  Main.finished s = true \/ exists s', Main.step Unmarshal registry s s'.
Proof.
  intros [_ [_ [Hc [He Hl]]]]. destruct s as [q c ws o v]. simpl in *.
  destruct (workers_cases ws) as [[ws1 [todo [ws2 ->]]]|[[ws1 [ws2 ->]]|Hall]].
  - right. destruct todo as [|e todo]; eexists; constructor.
  - right. destruct c.
    + eexists. apply Main.step_exit.
    + destruct q as [|repoName q]; eexists; constructor.
  - destruct c; [left; unfold Main.finished; simpl; exact Hall|].
    exfalso. specialize (He eq_refl).
    destruct ws as [|w ws]; [discriminate|]. simpl in *.
    destruct w; simpl in *; discriminate.
Qed.

(** When the pool has finished, every name was received, in the order of
    the list, and what was printed is what the visits print, line by
    line. *)
Lemma pool_finished (repos : list string) (s : Main.pool) :
  invariant Unmarshal registry repos s ->
  Main.finished s = true ->
  Main.visited s = repos
  /\ Permutation (Main.out s) (flat_map (Main.visit Unmarshal registry) repos).
Proof.
  intros [Hq [Hp [Hc _]]] Hf. unfold Main.finished in Hf.
  apply andb_true_iff in Hf as [Hclosed Hall].
  rewrite (Hc Hclosed), app_nil_r in Hq. subst repos. split; [reflexivity|].
  assert (Hnone : flat_map pending (Main.workers s) = []).
  { apply flat_map_nil. intros w Hw.
    rewrite forallb_forall in Hall. specialize (Hall w Hw). now destruct w. }
  now rewrite Hnone, app_nil_r in Hp.
Qed.

Lemma reaches_step_first (s s1 s2 : Main.pool) :
  Main.step Unmarshal registry s s1 ->
  Main.reaches Unmarshal registry s1 s2 ->
  Main.reaches Unmarshal registry s s2.
Proof.
  intros Hstep Hreach. induction Hreach as [|s2 s3 _ IH Hnext].
  - apply Main.reaches_step with s; [constructor|exact Hstep].
  - exact (Main.reaches_step _ _ _ _ _ IH Hnext).
Qed.

(** From every state the pool reaches it can run on until it has
    finished. *)
Lemma pool_completes (repos : list string) :
  forall n s,
    measure Unmarshal registry s < n ->
    invariant Unmarshal registry repos s ->
    exists s', Main.reaches Unmarshal registry s s' /\ Main.finished s' = true.
Proof.
  induction n as [|n IH]; intros s Hn Hinv; [lia|].
  destruct (pool_progress repos s Hinv) as [Hfin|[s1 Hstep]].
  - exists s. split; [constructor|exact Hfin].
  - pose proof (step_measure s s1 Hstep) as Hless.
    destruct (IH s1 ltac:(lia) (step_invariant repos s s1 Hinv Hstep)) as [s' [Hreach Hfin]].
    exists s'. split; [exact (reaches_step_first s s1 s' Hstep Hreach)|exact Hfin].
Qed.

(** *** [checkRepo] on a failing repository *)

Lemma checkTags_failure (manifests : ManifestService schema1.SignedManifest)
      (repoName tag : string) (err : error) (after : list string) :
  GetByTag manifests tag = Fail err ->
  forall before,
    (forall t, In t before -> exists m, GetByTag manifests t = Ok m) ->
    Main.checkTags Unmarshal manifests repoName (before ++ tag :: after)
    = (flat_map (fun t => match GetByTag manifests t with
                          | Ok m => fst (Main.checkManifest Unmarshal repoName m)
                          | Fail _ => []
                          end) before,
       Some (Errorf ("unexpected error getting manifest by tag: " ++ Error err))).
Proof.
  intros Htag. induction before as [|t before IH]; intros Hok; simpl.
  - now rewrite Htag.
  - destruct (Hok t (or_introl eq_refl)) as [m Hm]. rewrite Hm.
    rewrite checkManifest_spec. simpl.
    rewrite IH by (intros t' Ht'; apply Hok; now right).
    reflexivity.
Qed.


Lemma nth_error_setWorker (i : nat) (w : Main.worker) (ws : list Main.worker) :
  nth_error ws i = Some w -> ws = setWorker i w ws.
Proof.
  unfold setWorker. revert ws. induction i as [|i IH]; intros [|w' ws] H;
    try discriminate; simpl in *.
  - now injection H as ->.
  - f_equal. now apply IH.
Qed.

(** A move of a schedule is a step of the pool. *)
Lemma act_step (a : action) (s s' : Main.pool) :
  act Unmarshal registry a s = Some s' -> Main.step Unmarshal registry s s'.
Proof.
  destruct s as [q c ws o v]. unfold act. cbn [Main.queue Main.closed Main.workers
                                                Main.out Main.visited].
  destruct a as [i|i|i| |i].
  - destruct q as [|repoName q]; [discriminate|]. destruct c; [discriminate|].
    destruct (nth_error ws i) as [[| |]|] eqn:Hi; try discriminate.
    intros H. injection H as <-.
    rewrite (nth_error_setWorker i _ ws Hi) at 1. apply Main.step_receive.
  - destruct (nth_error ws i) as [[|[|e todo]|]|] eqn:Hi; try discriminate.
    intros H. injection H as <-.
    rewrite (nth_error_setWorker i _ ws Hi) at 1. apply Main.step_print.
  - destruct (nth_error ws i) as [[|[|e todo]|]|] eqn:Hi; try discriminate.
    intros H. injection H as <-.
    rewrite (nth_error_setWorker i _ ws Hi) at 1. apply Main.step_next.
  - destruct q; [|discriminate]. destruct c; [discriminate|].
    intros H. injection H as <-. apply Main.step_close.
  - destruct c; [|discriminate].
    destruct (nth_error ws i) as [[| |]|] eqn:Hi; try discriminate.
    intros H. injection H as <-.
    rewrite (nth_error_setWorker i _ ws Hi) at 1. apply Main.step_exit.
Qed.

Lemma reachesIn_step_first (s s1 s2 : Main.pool) (n : nat) :
  Main.step Unmarshal registry s s1 ->
  reachesIn Unmarshal registry s1 n s2 ->
  reachesIn Unmarshal registry s (S n) s2.
Proof.
  intros Hstep Hreach. induction Hreach as [|n s2 s3 _ IH Hnext].
  - apply reachesIn_step with s; [constructor|exact Hstep].
  - exact (reachesIn_step _ _ _ _ _ _ IH Hnext).
Qed.

(** A schedule that can be played is a run of as many steps as it has
    moves. *)
Lemma play_reachesIn (schedule : list action) :
  forall s s',
    play Unmarshal registry schedule s = Some s' ->
    reachesIn Unmarshal registry s (length schedule) s'.
Proof.
  induction schedule as [|a rest IH]; intros s s' H; simpl in H.
  - injection H as <-. constructor.
  - destruct (act Unmarshal registry a s) as [s1|] eqn:Ha; [|discriminate].
    exact (reachesIn_step_first s s1 s' _ (act_step a s s1 Ha) (IH s1 s' H)).
Qed.

Lemma play_reaches (schedule : list action) (s s' : Main.pool) :
  play Unmarshal registry schedule s = Some s' ->
  Main.reaches Unmarshal registry s s'.
Proof.
  revert s. induction schedule as [|a rest IH]; intros s H; simpl in H.
  - injection H as <-. constructor.
  - destruct (act Unmarshal registry a s) as [s1|] eqn:Ha; [|discriminate].
    exact (reaches_step_first s s1 s' (act_step a s s1 Ha) (IH s1 H)).
Qed.

Lemma visit_failure (repoName : string) (e : error) :
  snd (Main.checkRepo Unmarshal registry repoName) = Some e ->
  Main.visit Unmarshal registry repoName
  = fst (Main.checkRepo Unmarshal registry repoName) ++ [Stderr (Error e ++ nl)].
Proof.
  intros H. unfold Main.visit. rewrite fst_bind, H. reflexivity.
Qed.

End PoolFacts.

(** ** The sequential scan of [src/unnamed/part_000] *)
Section SequentialFacts.

Variable Unmarshal : string -> image -> image * option error.
Variable registry : Namespace manifest.SignedManifest.

(** The first repository whose visit fails ends the scan in a panic. *)
Lemma scanRepos_first_failure (repoName : string) (e : error) (after : list string) :
  snd (Part000.checkRepo Unmarshal registry repoName) = Some e ->
  forall before,
    (forall r, In r before -> snd (Part000.checkRepo Unmarshal registry r) = None) ->
    snd (Part000.scanRepos Unmarshal registry (before ++ repoName :: after))
    = (before ++ [repoName], Panicked (Error e)).
Proof.
  intros Hfail. induction before as [|r before IH]; intros Hok; simpl.
  - rewrite snd_bind, Hfail. reflexivity.
  - rewrite snd_bind, (Hok r (or_introl eq_refl)), snd_bind. simpl.
    now rewrite IH by (intros r' Hr'; apply Hok; now right).
Qed.



End SequentialFacts.

(** ** Claims about the scan *)

(** C2, as amended: in main.go a repository that cannot be opened, whose
    manifest service cannot be had, whose tags cannot be listed or one of
    whose manifests cannot be fetched makes [checkRepo] return at once with
    the error (after the progress line and the findings of the tags before
    the failing one, in the last case), and the worker prints the error on
    standard error; the pool goes on: from every state it reaches it can
    take a step until it has finished, every step takes a bound down, and
    when it has finished every name of the list was handed to [checkRepo]
    and the lines of every visit were printed.  In part_000 the first
    failing repository ends the process in a panic, and no later
    repository is visited. *)
Theorem repository_failure_is_local_to_the_pool
  (Unmarshal : string -> image -> image * option error)
  (registry : Namespace schema1.SignedManifest)
  (repos : list string) (s : Main.pool) :
  Main.reaches Unmarshal registry (Main.start repos) s ->
  (Main.finished s = true \/ exists s', Main.step Unmarshal registry s s')
  /\ (forall s', Main.step Unmarshal registry s s' ->
                 measure Unmarshal registry s' < measure Unmarshal registry s)
  /\ (exists s', Main.reaches Unmarshal registry s s' /\ Main.finished s' = true)
  /\ (Main.finished s = true ->
      Main.visited s = repos
      /\ Permutation (Main.out s) (flat_map (Main.visit Unmarshal registry) repos))
  /\ (forall repoName e,
        snd (Main.checkRepo Unmarshal registry repoName) = Some e ->
        Main.visit Unmarshal registry repoName
        = fst (Main.checkRepo Unmarshal registry repoName) ++ [Stderr (Error e ++ nl)])
  /\ (forall repoName err,
        OpenRepository registry repoName = Fail err ->
        Main.checkRepo Unmarshal registry repoName
        = ([], Some (Errorf ("unexpected error getting repository: " ++ Error err))))
  /\ (forall repoName repo err,
        OpenRepository registry repoName = Ok repo ->
        Manifests repo = Fail err ->
        Main.checkRepo Unmarshal registry repoName
        = ([], Some (Errorf ("unexpected error getting manifests: " ++ Error err))))
  /\ (forall repoName repo manifests err,
        OpenRepository registry repoName = Ok repo ->
        Manifests repo = Ok manifests ->
        Tags manifests = Fail err ->
        Main.checkRepo Unmarshal registry repoName
        = ([], Some (Errorf ("unexpected error getting tags: " ++ Error err))))
  /\ (forall repoName repo manifests before tag after err,
        OpenRepository registry repoName = Ok repo ->
        Manifests repo = Ok manifests ->
        Tags manifests = Ok (before ++ tag :: after) ->
        GetByTag manifests tag = Fail err ->
        (forall t, In t before -> exists m, GetByTag manifests t = Ok m) ->
        Main.checkRepo Unmarshal registry repoName
        = (Stderr ("checking repo " ++ repoName ++ " (%!d(MISSING) tags)" ++ nl)
           :: flat_map (fun t => match GetByTag manifests t with
                                 | Ok m => fst (Main.checkManifest Unmarshal repoName m)
                                 | Fail _ => []
                                 end) before,
           Some (Errorf ("unexpected error getting manifest by tag: " ++ Error err)))
        /\ Main.visit Unmarshal registry repoName
           = Stderr ("checking repo " ++ repoName ++ " (%!d(MISSING) tags)" ++ nl)
             :: flat_map (fun t => match GetByTag manifests t with
                                   | Ok m => fst (Main.checkManifest Unmarshal repoName m)
                                   | Fail _ => []
                                   end) before
             ++ [Stderr (("unexpected error getting manifest by tag: " ++ Error err)
                         ++ nl)])
  /\ (forall manifests repoName before tag after err,
        GetByTag manifests tag = Fail err ->
        (forall t, In t before -> exists m, GetByTag manifests t = Ok m) ->
        Main.checkTags Unmarshal manifests repoName (before ++ tag :: after)
        = (flat_map (fun t => match GetByTag manifests t with
                              | Ok m => fst (Main.checkManifest Unmarshal repoName m)
                              | Fail _ => []
                              end) before,
           Some (Errorf ("unexpected error getting manifest by tag: " ++ Error err))))
  /\ (forall (env : Env schema1.SignedManifest) configPath reposPath scanned,
        newRegistry env = registry ->
        Main.prepare env configPath reposPath = Main.Scan scanned ->
        (exists printed, Main.runs Unmarshal env configPath reposPath printed Returned)
        /\ (forall printed o,
              Main.runs Unmarshal env configPath reposPath printed o ->
              o = Returned
              /\ Permutation printed (flat_map (Main.visit Unmarshal registry) scanned)))
  /\ (forall (old : Namespace manifest.SignedManifest) before repoName after e,
        snd (Part000.checkRepo Unmarshal old repoName) = Some e ->
        (forall r, In r before -> snd (Part000.checkRepo Unmarshal old r) = None) ->
        snd (Part000.scanRepos Unmarshal old (before ++ repoName :: after))
        = (before ++ [repoName], Panicked (Error e))).
Proof.
  intros Hreach. pose proof (reaches_invariant Unmarshal registry repos s Hreach) as Hinv.
  split; [exact (pool_progress Unmarshal registry repos s Hinv)|].
  split; [exact (step_measure Unmarshal registry s)|].
  split; [exact (pool_completes Unmarshal registry repos _ s (Nat.lt_succ_diag_r _) Hinv)|].
  split; [exact (pool_finished Unmarshal registry repos s Hinv)|].
  split; [exact (visit_failure Unmarshal registry)|].
  split; [|split; [|split; [|split; [|split; [|split]]]]].
  - intros repoName err H. unfold Main.checkRepo. now rewrite H.
  - intros repoName repo err H1 H2. unfold Main.checkRepo. now rewrite H1, H2.
  - intros repoName repo manifests err H1 H2 H3. unfold Main.checkRepo.
    now rewrite H1, H2, H3.
  - intros repoName repo manifests before tag after err H1 H2 H3 H4 H5.
    assert (Hrepo : Main.checkRepo Unmarshal registry repoName
                    = (Stderr ("checking repo " ++ repoName ++ " (%!d(MISSING) tags)" ++ nl)
                       :: flat_map (fun t => match GetByTag manifests t with
                                             | Ok m => fst (Main.checkManifest Unmarshal
                                                              repoName m)
                                             | Fail _ => []
                                             end) before,
                       Some (Errorf ("unexpected error getting manifest by tag: "
                                     ++ Error err)))).
    { unfold Main.checkRepo. rewrite H1, H2, H3.
      unfold bind, print. cbn [fst snd].
      rewrite (checkTags_failure Unmarshal manifests repoName tag err after H4 before H5).
      reflexivity. }
    split; [exact Hrepo|].
    rewrite (visit_failure Unmarshal registry repoName _ (f_equal snd Hrepo)).
    rewrite Hrepo. reflexivity.
  - intros manifests repoName before tag after err H1 H2.
    now apply checkTags_failure.
  - intros env configPath reposPath scanned Hreg Hprep. split.
    + destruct (pool_completes Unmarshal registry scanned _ (Main.start scanned)
                  (Nat.lt_succ_diag_r _) (start_invariant Unmarshal registry scanned))
        as [s' [Hrun Hfin]].
      exists (Main.out s'). apply Main.runs_scan with scanned; [exact Hprep| |exact Hfin].
      now rewrite Hreg.
    + intros printed o Hrun.
      inversion Hrun as [o' r' Hstop|scanned' s' Hscan Hreach' Hfin]; subst.
      * rewrite Hprep in Hstop. discriminate.
      * rewrite Hprep in Hscan. injection Hscan as <-. split; [reflexivity|].
        pose proof (reaches_invariant Unmarshal (newRegistry env) scanned s' Hreach') as Hinv'.
        exact (proj2 (pool_finished Unmarshal (newRegistry env) scanned s' Hinv' Hfin)).
  - intros old before repoName after e H1 H2. now apply scanRepos_first_failure.
Qed.

(** A whole run of the pool on the two names "broken" and "library/app",
    two workers at work at once: it has finished, both names were handed
    to [checkRepo], the error line of "broken" stands between the two lines
    of "library/app", and what is printed is the lines of the two
    visits. *)
Lemma interleaved_run_on_two_names :
  Main.reaches json.Unmarshal (Sample.registryOf Sample.orphan)
               (Main.start ["broken"; "library/app"]) MoreSamples.interleavedEnd
  /\ Main.finished MoreSamples.interleavedEnd = true
  /\ Main.visited MoreSamples.interleavedEnd = ["broken"; "library/app"]
  /\ Permutation (Main.out MoreSamples.interleavedEnd)
       (flat_map (Main.visit json.Unmarshal (Sample.registryOf Sample.orphan))
                 ["broken"; "library/app"]).
Proof.
  assert (H : Main.reaches json.Unmarshal (Sample.registryOf Sample.orphan)
                           (Main.start ["broken"; "library/app"])
                           MoreSamples.interleavedEnd).
  { apply (play_reaches json.Unmarshal (Sample.registryOf Sample.orphan)
             MoreSamples.interleaved).
    vm_compute. reflexivity. }
  split; [exact H|]. split; [reflexivity|].
  destruct (repository_failure_is_local_to_the_pool json.Unmarshal
              (Sample.registryOf Sample.orphan) ["broken"; "library/app"] _ H)
    as [_ [_ [_ [Hfin _]]]].
  exact (Hfin eq_refl).
Defined.

(** The sequential revision on the sample list: "broken" comes first, the
    process panics on it, and no other repository is visited. *)
Lemma sequential_scan_stops_at_broken :
  Part000.readRepos Sample.reposLines [] = ["broken"; "library/app"; "library/db"]
  /\ Part000.main json.Unmarshal (Sample.envOf (to_manifest Sample.chain))
                  "config.yml" "repos.txt"
     = ([], (["broken"],
             Panicked "unexpected error getting repository: repository unknown")).
Proof. vm_compute. split; reflexivity. Qed.

(** ** Resolving the repository names *)

Lemma ltb_length_nonEmpty (line : string) :
  Nat.ltb 0 (String.length line) = nonEmpty line.
Proof. destruct line; reflexivity. Qed.

Lemma readRepos_spec (lines : list string) :
  forall repos,
    Main.readRepos lines repos = repos ++ map Main.stripPlus (filter nonEmpty lines).
Proof.
  induction lines as [|line rest IH]; intros repos; simpl.
  - now rewrite app_nil_r.
  - rewrite ltb_length_nonEmpty. destruct (nonEmpty line); rewrite IH; [|reflexivity].
    now rewrite <- app_assoc.
Qed.

Lemma readRepos_same (lines : list string) :
  forall repos, Part000.readRepos lines repos = Main.readRepos lines repos.
Proof.
  induction lines as [|line rest IH]; intros repos; simpl; [reflexivity|].
  destruct (Nat.ltb 0 (String.length line)); now rewrite IH.
Qed.

Lemma readRepos_app (before after : list string) :
  Main.readRepos (before ++ after) [] = Main.readRepos before [] ++ Main.readRepos after [].
Proof.
  rewrite !readRepos_spec. simpl. now rewrite filter_app, map_app.
Qed.

Lemma stripPlus_plus (tail : string) : Main.stripPlus (String "+" tail) = tail.
Proof. reflexivity. Qed.

Lemma stripPlus_other (line : string) :
  (forall tail, line <> String "+" tail) -> Main.stripPlus line = line.
Proof.
  intros H. destruct line as [|c tail]; [reflexivity|]. simpl.
  destruct (Ascii.eqb c "+") eqn:E; [|reflexivity].
  apply Ascii.eqb_eq in E. subst c. now elim (H tail).
Qed.

(** [len(repos)] after [make([]string, maxRepos)] and after the registry
    has written into it. *)
Lemma fillBuffer_length (entries buf : list string) :
  length (fillBuffer entries buf) = length buf.
Proof.
  unfold fillBuffer. rewrite length_firstn, length_app, length_skipn. lia.
Qed.

(** C7: with a repository-list file the list is the file's lines in order
    without the empty ones, each without one leading '+'; a line "+name"
    contributes [name], as the line "name" does for a name that is not
    empty and does not itself begin with '+'; the registry is not asked:
    any two environments with the same file resolve to the same list. *)
Theorem repos_file_is_the_source
  (env : Env schema1.SignedManifest) (reposPath : string) (lines : list string) :
  reposPath <> "" ->
  openRepos env reposPath = Ok lines ->
  Main.resolveRepos env reposPath = Repos (map Main.stripPlus (filter nonEmpty lines))
  /\ (forall line, nonEmpty line = true <-> line <> "")
  /\ (forall tail, Main.stripPlus (String "+" tail) = tail)
  /\ (forall line, (forall tail, line <> String "+" tail) -> Main.stripPlus line = line)
  /\ (forall name before after,
         Main.readRepos (before ++ String "+" name :: after) []
         = Main.readRepos before [] ++ name :: Main.readRepos after [])
  /\ (forall name before after,
         name <> "" -> (forall tail, name <> String "+" tail) ->
         Main.readRepos (before ++ name :: after) []
         = Main.readRepos before [] ++ name :: Main.readRepos after [])
  /\ (forall env' : Env schema1.SignedManifest,
         openRepos env' reposPath = Ok lines ->
         Main.resolveRepos env' reposPath = Main.resolveRepos env reposPath).
Proof.
  intros Hpath Hopen.
  assert (Hres : forall e : Env schema1.SignedManifest,
             openRepos e reposPath = Ok lines ->
             Main.resolveRepos e reposPath
             = Repos (map Main.stripPlus (filter nonEmpty lines))).
  { intros e He. unfold Main.resolveRepos.
    apply String.eqb_neq in Hpath. rewrite Hpath, He. simpl.
    now rewrite readRepos_spec. }
  split; [now apply Hres|].
  split; [intros line; unfold nonEmpty; rewrite negb_true_iff; apply String.eqb_neq|].
  split; [exact stripPlus_plus|]. split; [exact stripPlus_other|].
  split; [|split].
  - intros name before after. rewrite readRepos_app. f_equal.
    rewrite !readRepos_spec. reflexivity.
  - intros name before after Hne Hplus. rewrite readRepos_app. f_equal.
    rewrite !readRepos_spec. simpl.
    assert (E : nonEmpty name = true).
    { unfold nonEmpty. apply negb_true_iff. now apply String.eqb_neq. }
    rewrite E. simpl. now rewrite stripPlus_other.
  - intros env' He. now rewrite (Hres env' He), (Hres env Hopen).
Qed.

(** The sample file: the empty line goes, "+library/app" loses its '+'. *)
Lemma sample_file_resolution :
  "repos.txt" <> ""
  /\ openRepos (Sample.envOf Sample.chain) "repos.txt" = Ok Sample.reposLines
  /\ Main.resolveRepos (Sample.envOf Sample.chain) "repos.txt"
     = Repos ["broken"; "library/app"; "library/db"].
Proof.
  assert (H1 : "repos.txt" <> "") by discriminate.
  assert (H2 : openRepos (Sample.envOf Sample.chain) "repos.txt" = Ok Sample.reposLines)
    by reflexivity.
  split; [exact H1|]. split; [exact H2|].
  destruct (repos_file_is_the_source (Sample.envOf Sample.chain) "repos.txt"
              Sample.reposLines H1 H2) as [Hres _].
  rewrite Hres. reflexivity.
Defined.


(** C6: without a repository-list file the registry is asked to fill a
    slice of 500000 names, starting after "".  An error other than
    [io.EOF] is a panic, a count of exactly 500000 is a panic, and a count
    from 0 up to 499999 gives the first [n] names of the slice; a panic at
    this point is how the process ends, and nothing has been printed. *)
Theorem enumeration_has_a_ceiling
  (Unmarshal : string -> image -> image * option error)
  (env : Env schema1.SignedManifest)
  (written : list string) (n : Z) (err : option error) :
  Repositories (newRegistry env) (Z.to_nat 500000) "" = (written, n, err) ->
  let buffer := fillBuffer written (repeat "" (Z.to_nat 500000)) in
  maxRepos = 500000%Z
  /\ length buffer = Z.to_nat 500000
  /\ (forall e, err = Some e -> e <> EOF ->
                Main.resolveRepos env ""
                = Fatal ("unexpected error getting repo: " ++ Error e))
  /\ (err = None \/ err = Some EOF ->
      n = 500000%Z ->
      Main.resolveRepos env "" = Fatal "too many repositories")
  /\ (err = None \/ err = Some EOF ->
      (0 <= n < 500000)%Z ->
      Main.resolveRepos env "" = Repos (firstn (Z.to_nat n) buffer))
  /\ (forall configPath msg,
         configPath <> "" ->
         openConfig env configPath = None ->
         parseConfig env = None ->
         createDriver env = None ->
         Main.resolveRepos env "" = Fatal msg ->
         forall printed o,
           Main.runs Unmarshal env configPath "" printed o ->
           printed = [] /\ o = Panicked msg)
  /\ (forall configPath repos,
         configPath <> "" ->
         openConfig env configPath = None ->
         parseConfig env = None ->
         createDriver env = None ->
         Main.resolveRepos env "" = Repos repos ->
         Main.prepare env configPath "" = Main.Scan repos).
Proof.
  intros Hcall buffer.
  assert (Hlen : length buffer = Z.to_nat 500000).
  { unfold buffer. now rewrite fillBuffer_length, repeat_length. }
  assert (Hprep : forall configPath,
             configPath <> "" ->
             openConfig env configPath = None ->
             parseConfig env = None ->
             createDriver env = None ->
             Main.prepare env configPath ""
             = match Main.resolveRepos env "" with
               | Fatal msg => Main.Stop [] (Panicked msg)
               | Repos repos => Main.Scan repos
               end).
  { intros configPath Hc H1 H2 H3. unfold Main.prepare.
    apply String.eqb_neq in Hc. now rewrite Hc, H1, H2, H3. }
  assert (Hres : Main.resolveRepos env ""
                 = match err with
                   | Some e =>
                       if negb (isEOF e)
                       then Fatal ("unexpected error getting repo: " ++ Error e)
                       else if (n =? maxRepos)%Z then Fatal "too many repositories"
                            else slice_to buffer n
                   | None =>
                       if (n =? maxRepos)%Z then Fatal "too many repositories"
                       else slice_to buffer n
                   end).
  { unfold Main.resolveRepos. simpl String.eqb. cbv iota. simpl negb. cbv iota.
    rewrite repeat_length. change (Z.to_nat maxRepos) with (Z.to_nat 500000).
    rewrite Hcall. reflexivity. }
  split; [reflexivity|]. split; [exact Hlen|]. split; [|split; [|split; [|split]]].
  - intros e -> He. rewrite Hres. destruct e; [congruence|reflexivity].
  - intros Herr ->. rewrite Hres.
    destruct Herr as [->| ->]; reflexivity.
  - intros Herr Hn. rewrite Hres.
    assert (E : (n =? maxRepos)%Z = false) by (apply Z.eqb_neq; unfold maxRepos; lia).
    assert (Hslice : slice_to buffer n = Repos (firstn (Z.to_nat n) buffer)).
    { unfold slice_to. rewrite Hlen.
      assert (B0 : (n <? 0)%Z = false) by (apply Z.ltb_ge; lia).
      assert (B1 : (Z.of_nat (Z.to_nat 500000) <? n)%Z = false) by (apply Z.ltb_ge; lia).
      now rewrite B0, B1. }
    destruct Herr as [->| ->]; simpl; now rewrite E.
  - intros configPath msg Hc H1 H2 H3 Hfatal printed o Hrun.
    pose proof (Hprep configPath Hc H1 H2 H3) as Hp. rewrite Hfatal in Hp.
    inversion Hrun as [o' r' Hstop|repos s Hscan]; subst.
    + rewrite Hp in Hstop. injection Hstop as <- <-. auto.
    + rewrite Hp in Hscan. discriminate.
  - intros configPath repos Hc H1 H2 H3 Hrepos.
    now rewrite (Hprep configPath Hc H1 H2 H3), Hrepos.
Qed.

Lemma firstn_fillBuffer (entries buf : list string) :
  length entries <= length buf ->
  firstn (length entries) (fillBuffer entries buf) = entries.
Proof.
  intros H. unfold fillBuffer. rewrite firstn_firstn, Nat.min_l by assumption.
  rewrite firstn_app, Nat.sub_diag, firstn_all. simpl. apply app_nil_r.
Qed.

(** The sample registry lists two repositories and then reports the end of
    the listing: these two are the list to scan. *)
Lemma sample_enumeration :
  Repositories (newRegistry (Sample.envOf Sample.chain)) (Z.to_nat 500000) ""
  = (["library/app"; "broken"], 2%Z, Some EOF)
  /\ Main.resolveRepos (Sample.envOf Sample.chain) "" = Repos ["library/app"; "broken"].
Proof.
  assert (H : Repositories (newRegistry (Sample.envOf Sample.chain)) (Z.to_nat 500000) ""
              = (["library/app"; "broken"], 2%Z, Some EOF)) by reflexivity.
  split; [exact H|].
  destruct (enumeration_has_a_ceiling json.Unmarshal (Sample.envOf Sample.chain)
              ["library/app"; "broken"] 2 (Some EOF) H) as [_ [_ [_ [_ [Hbelow _]]]]].
  rewrite Hbelow; [|now right|lia].
  change (Z.to_nat 2) with (length ["library/app"; "broken"]).
  rewrite firstn_fillBuffer; [reflexivity|].
  rewrite repeat_length. simpl. lia.
Defined.

(** * Further properties *)

(** ** [checkRepo] *)
Section CheckRepoFacts.

Variable Unmarshal : string -> image -> image * option error.

Lemma checkTags_success (manifests : ManifestService schema1.SignedManifest)
      (repoName : string) (tags : list string) :
  (forall tag, In tag tags -> exists mnfst, GetByTag manifests tag = Ok mnfst) ->
  Main.checkTags Unmarshal manifests repoName tags
  = (tagFindings Unmarshal manifests repoName tags, None).
Proof.
  induction tags as [|tag rest IH]; intros Hok; simpl; [reflexivity|].
  destruct (Hok tag (or_introl eq_refl)) as [mnfst Hm]. rewrite Hm.
  rewrite (checkManifest_spec Unmarshal). simpl.
  rewrite IH by (intros t Ht; apply Hok; now right).
  reflexivity.
Qed.

Lemma checkTags_error (manifests : ManifestService schema1.SignedManifest)
      (repoName : string) (tags : list string) (e : error) :
  snd (Main.checkTags Unmarshal manifests repoName tags) = Some e ->
  exists tag cause,
    In tag tags /\ GetByTag manifests tag = Fail cause
    /\ e = Errorf ("unexpected error getting manifest by tag: " ++ Error cause).
Proof.
  induction tags as [|tag rest IH]; simpl; [discriminate|].
  destruct (GetByTag manifests tag) as [mnfst|cause] eqn:Hm.
  - rewrite snd_bind, (checkManifest_spec Unmarshal). simpl. intros H.
    destruct (IH H) as [t [c [Hin [Ht He]]]]. exists t, c. auto.
  - simpl. intros H. injection H as <-. exists tag, cause. auto.
Qed.

(** X1: [checkRepo] of main.go returns [nil] exactly when the repository
    opens, hands out its manifest service, lists its tags and every tag's
    manifest can be fetched; it then has printed the progress line and the
    findings of every tag, in the order of the tags.  An error it returns
    is one of the four wrapped errors of the registry, never one of
    [checkManifest]. *)
Theorem checkRepo_succeeds_iff
  (registry : Namespace schema1.SignedManifest) (repoName : string) :
  (snd (Main.checkRepo Unmarshal registry repoName) = None
   <-> exists repo manifests tags,
         OpenRepository registry repoName = Ok repo
         /\ Manifests repo = Ok manifests
         /\ Tags manifests = Ok tags
         /\ forall tag, In tag tags -> exists mnfst, GetByTag manifests tag = Ok mnfst)
  /\ (forall repo manifests tags,
         OpenRepository registry repoName = Ok repo ->
         Manifests repo = Ok manifests ->
         Tags manifests = Ok tags ->
         (forall tag, In tag tags -> exists mnfst, GetByTag manifests tag = Ok mnfst) ->
         Main.checkRepo Unmarshal registry repoName
         = (progressLine repoName
              :: flat_map (fun tag =>
                             match GetByTag manifests tag with
                             | Ok mnfst => fst (Main.checkManifest Unmarshal repoName mnfst)
                             | Fail _ => []
                             end) tags,
            None))
  /\ (forall e,
         snd (Main.checkRepo Unmarshal registry repoName) = Some e ->
         exists cause,
           e = Errorf ("unexpected error getting repository: " ++ Error cause)
           \/ e = Errorf ("unexpected error getting manifests: " ++ Error cause)
           \/ e = Errorf ("unexpected error getting tags: " ++ Error cause)
           \/ e = Errorf ("unexpected error getting manifest by tag: " ++ Error cause)).
Proof.
  assert (Hok : forall repo manifests tags,
             OpenRepository registry repoName = Ok repo ->
             Manifests repo = Ok manifests ->
             Tags manifests = Ok tags ->
             (forall tag, In tag tags -> exists mnfst, GetByTag manifests tag = Ok mnfst) ->
             Main.checkRepo Unmarshal registry repoName
             = (progressLine repoName :: tagFindings Unmarshal manifests repoName tags, None)).
  { intros repo manifests tags H1 H2 H3 H4. unfold Main.checkRepo.
    rewrite H1, H2, H3, (checkTags_success manifests repoName tags H4). reflexivity. }
  split; [split|split].
  - clear Hok. unfold Main.checkRepo.
    destruct (OpenRepository registry repoName) as [repo|] eqn:H1; [|discriminate].
    destruct (Manifests repo) as [manifests|] eqn:H2; [|discriminate].
    destruct (Tags manifests) as [tags|] eqn:H3; [|discriminate].
    rewrite snd_bind. intros Hnil. exists repo, manifests, tags.
    split; [reflexivity|]. split; [exact H2|]. split; [exact H3|].
    intros tag Hin. destruct (GetByTag manifests tag) as [mnfst|cause] eqn:Hm; [eauto|].
    exfalso. apply in_split in Hin as [before [after ->]].
    clear H3. induction before as [|t before IH]; simpl in Hnil.
    + rewrite Hm in Hnil. discriminate.
    + destruct (GetByTag manifests t); [|discriminate].
      rewrite snd_bind, (checkManifest_spec Unmarshal) in Hnil. simpl in Hnil. auto.
  - intros [repo [manifests [tags [H1 [H2 [H3 H4]]]]]].
    now rewrite (Hok repo manifests tags H1 H2 H3 H4).
  - exact Hok.
  - intros e. unfold Main.checkRepo.
    destruct (OpenRepository registry repoName) as [repo|c1];
      [|intros H; injection H as <-; exists c1; auto].
    destruct (Manifests repo) as [manifests|c2];
      [|intros H; injection H as <-; exists c2; auto].
    destruct (Tags manifests) as [tags|c3];
      [|intros H; injection H as <-; exists c3; auto].
    rewrite snd_bind. intros H.
    destruct (checkTags_error manifests repoName tags e H) as [_ [cause [_ [_ ->]]]].
    exists cause. auto.
Qed.

End CheckRepoFacts.

(** ** [checkRepo] of the two revisions *)
Section SameCheckRepo.

Variable Unmarshal : string -> image -> image * option error.

Lemma checkTags_same (manifests : ManifestService manifest.SignedManifest)
      (repoName : string) (tags : list string) :
  Part000.checkTags Unmarshal manifests repoName tags
  = Main.checkTags Unmarshal (to_schema1_service manifests) repoName tags.
Proof.
  induction tags as [|tag rest IH]; simpl; [reflexivity|].
  destruct (GetByTag manifests tag) as [mnfst|cause]; simpl; [|reflexivity].
  rewrite checkManifest_same. apply bind_ext. intros [e|]; [reflexivity|exact IH].
Qed.

Lemma listedTags_same (registry : Namespace manifest.SignedManifest) (repoName : string) :
  listedTags (to_schema1_registry registry) repoName = listedTags registry repoName.
Proof.
  unfold listedTags. simpl.
  destruct (OpenRepository registry repoName) as [repo|]; simpl; [|reflexivity].
  destruct (Manifests repo) as [manifests|]; simpl; [|reflexivity].
  destruct (Tags manifests); reflexivity.
Qed.

(** X2: on the same registry [checkRepo] of main.go returns what
    [checkRepo] of part_000 returns and prints what it prints, after the
    progress line on standard error when the tags could be listed. *)
Theorem checkRepo_differs_by_progress_line
  (registry : Namespace manifest.SignedManifest) (repoName : string) :
  snd (Main.checkRepo Unmarshal (to_schema1_registry registry) repoName)
  = snd (Part000.checkRepo Unmarshal registry repoName)
  /\ fst (Main.checkRepo Unmarshal (to_schema1_registry registry) repoName)
     = match listedTags registry repoName with
       | Some _ => [progressLine repoName]
       | None => []
       end
       ++ fst (Part000.checkRepo Unmarshal registry repoName)
  /\ (forall line,
         In (Stderr line) (fst (Part000.checkRepo Unmarshal registry repoName)) -> False).
Proof.
  unfold Main.checkRepo, Part000.checkRepo, listedTags.
  cbn [to_schema1_registry OpenRepository].
  destruct (OpenRepository registry repoName) as [repo|];
    cbn [map_result to_schema1_repository Manifests];
    [|repeat split; intros line []].
  destruct (Manifests repo) as [manifests|];
    cbn [map_result to_schema1_service Tags]; [|repeat split; intros line []].
  destruct (Tags manifests) as [tags|]; [|repeat split; intros line []].
  rewrite snd_bind, fst_bind, checkTags_same.
  split; [reflexivity|]. split; [reflexivity|].
  intros line. generalize (to_schema1_service manifests) as ms. intros ms.
  induction tags as [|tag rest IH]; simpl; [intros []|].
  destruct (GetByTag ms tag) as [mnfst|cause]; simpl; [|intros []].
  rewrite fst_bind, (checkManifest_spec Unmarshal). simpl.
  rewrite !in_app_iff. intros [[H|[H|H]]|H].
  - unfold layerFindings in H. apply in_app_or in H as [H|H].
    + destruct (_ || _); [destruct H as [H|[]]; discriminate|contradiction].
    + destruct (Nat.eqb _ _); [contradiction|destruct H as [H|[]]; discriminate].
  - apply decodeFindings_In in H as [err H]. discriminate.
  - apply parentBlocks_In in H as [parent H]. discriminate.
  - auto.
Qed.

End SameCheckRepo.

(** ** More on the validator *)
Section ValidatorExtras.

Variable Unmarshal : string -> image -> image * option error.

Lemma flat_map_length_le {A B} (f : A -> list B) (l : list A) :
  (forall x, length (f x) <= 1) -> length (flat_map f l) <= length l.
Proof.
  intros H. induction l as [|a l IH]; simpl; [lia|].
  rewrite length_app. specialize (H a). lia.
Qed.

Lemma parentBlock_length (repoName : string) (images : list image) (i : nat) :
  length (parentBlock repoName images i) <= 1.
Proof.
  unfold parentBlock, Main.checkParentLink.
  destruct (negb (String.eqb (Parent (nth i images zero_image)) "")); simpl; [|lia].
  destruct (negb (String.eqb _ _)); simpl; lia.
Qed.

Lemma parentBlock_names_parent (repoName : string) (images : list image) (i : nat)
      (ev : event) :
  i < length images ->
  In ev (parentBlock repoName images i) ->
  exists im, In im images /\ Parent im <> ""
             /\ ev = finding repoName (parentNotBelow (Parent im)).
Proof.
  intros Hi. unfold parentBlock, Main.checkParentLink.
  destruct (String.eqb (Parent (nth i images zero_image)) "") eqn:E; simpl;
    [contradiction|].
  destruct (negb (String.eqb _ _)); simpl; [|contradiction].
  intros [<-|[]]. exists (nth i images zero_image).
  split; [now apply nth_In|]. split; [now apply String.eqb_neq|reflexivity].
Qed.

(** X3: every line [checkManifest] prints goes to standard output and is
    [<repoName>: <text>] for one of the four texts; a parent finding names
    the non-empty parent of a decoded image, a decode finding the error of
    a history entry.  There are at most two lines about the counts and two
    per history entry. *)
Theorem findings_are_tagged_and_bounded
  (repoName : string) (mnfst : schema1.SignedManifest) :
  (forall ev,
      In ev (fst (Main.checkManifest Unmarshal repoName mnfst)) ->
      ev = finding repoName noLayers
      \/ ev = finding repoName mismatched
      \/ (exists entry err,
             In entry (schema1.History_ mnfst)
             /\ snd (decoded Unmarshal entry) = Some err
             /\ ev = finding repoName (unmarshalError err))
      \/ (exists im,
             In im (imagesOf Unmarshal mnfst) /\ Parent im <> ""
             /\ ev = finding repoName (parentNotBelow (Parent im))))
  /\ length (fst (Main.checkManifest Unmarshal repoName mnfst))
     <= 2 + 2 * length (schema1.History_ mnfst).
Proof.
  rewrite checkManifest_spec. simpl fst. split.
  - intros ev. rewrite !in_app_iff. intros [H|[H|H]].
    + unfold layerFindings in H. apply in_app_or in H as [H|H].
      * destruct (_ || _); [destruct H as [<-|[]]; auto|contradiction].
      * destruct (Nat.eqb _ _); [contradiction|destruct H as [<-|[]]; auto].
    + right. right. left. unfold decodeFindings in H.
      apply in_flat_map in H as [entry [Hin H]]. unfold decodeFinding in H.
      destruct (snd (decoded Unmarshal entry)) as [err|] eqn:E; [|contradiction].
      destruct H as [<-|[]]. now exists entry, err.
    + right. right. right. unfold parentBlocks in H.
      apply in_flat_map in H as [i [Hi H]]. apply in_seq in Hi as [_ Hi].
      now apply parentBlock_names_parent with i.
  - rewrite !length_app.
    assert (H1 : length (layerFindings repoName mnfst) <= 2).
    { unfold layerFindings. rewrite length_app.
      destruct (_ || _); destruct (Nat.eqb _ _); simpl; lia. }
    assert (H2 : length (decodeFindings Unmarshal repoName (schema1.History_ mnfst))
                 <= length (schema1.History_ mnfst)).
    { apply flat_map_length_le. intros entry. unfold decodeFinding.
      destruct (snd (decoded Unmarshal entry)); simpl; lia. }
    assert (H3 : length (parentBlocks repoName (imagesOf Unmarshal mnfst) 0
                           (length (imagesOf Unmarshal mnfst)))
                 <= length (schema1.History_ mnfst)).
    { unfold parentBlocks. rewrite <- (imagesOf_length Unmarshal mnfst).
      apply Nat.le_trans with (length (seq 0 (length (imagesOf Unmarshal mnfst)))).
      - apply flat_map_length_le. intros i. apply parentBlock_length.
      - now rewrite length_seq. }
    lia.
Qed.

(** X4: [checkManifest] reads the number of layers and the history and
    nothing else of the manifest: two manifests with as many layers and
    the same history get the same findings, whatever their names, tags and
    layer digests. *)
Theorem findings_depend_on_counts_and_history
  (repoName : string) (m1 m2 : schema1.SignedManifest) :
  length (schema1.FSLayers m1) = length (schema1.FSLayers m2) ->
  schema1.History_ m1 = schema1.History_ m2 ->
  Main.checkManifest Unmarshal repoName m1 = Main.checkManifest Unmarshal repoName m2.
Proof.
  intros Hl Hh. rewrite !checkManifest_spec.
  unfold layerFindings, imagesOf. now rewrite Hl, Hh.
Qed.

(** X5: when the IDs of the decoded images are pairwise different, an
    image whose parent is the ID of an image above it gets the finding. *)
Theorem parent_above_is_reported
  (repoName : string) (mnfst : schema1.SignedManifest) (i j : nat) (im above : image) :
  NoDup (map ID (imagesOf Unmarshal mnfst)) ->
  nth_error (imagesOf Unmarshal mnfst) i = Some im ->
  nth_error (imagesOf Unmarshal mnfst) j = Some above ->
  j < i ->
  Parent im <> "" ->
  Parent im = ID above ->
  parentBlock repoName (imagesOf Unmarshal mnfst) i
  = [finding repoName (parentNotBelow (Parent im))]
  /\ In (finding repoName (parentNotBelow (Parent im)))
        (fst (Main.checkManifest Unmarshal repoName mnfst)).
Proof.
  intros Hnodup Hi Hj Hlt Hp Hparent.
  assert (Hlen : i < length (imagesOf Unmarshal mnfst)).
  { apply nth_error_Some. rewrite Hi. discriminate. }
  assert (Hblock : parentBlock repoName (imagesOf Unmarshal mnfst) i
                   = [finding repoName (parentNotBelow (Parent im))]).
  { destruct (parentBlock_cases repoName _ _ _ Hi Hp)
      as [[_ Hb]|[[k [c [Hik [Hk Hc]]]] _]]; [exact Hb|].
    exfalso.
    assert (Hjk : j = k).
    { apply (proj1 (NoDup_nth_error (map ID (imagesOf Unmarshal mnfst))) Hnodup).
      - rewrite length_map. apply nth_error_Some. rewrite Hj. discriminate.
      - rewrite !nth_error_map, Hj, Hk. simpl. congruence. }
    lia. }
  split; [exact Hblock|].
  rewrite checkManifest_spec. simpl fst.
  rewrite (parentBlocks_split repoName _ i _ Hlen), Hblock, !in_app_iff.
  right. right. right. left. now left.
Qed.

End ValidatorExtras.

(** Renaming and retagging [Sample.chain] and changing its layers changes
    no finding. *)
Lemma retagged_chain_same_findings :
  length (schema1.FSLayers Sample.chain)
  = length (schema1.FSLayers MoreSamples.chainRetagged)
  /\ schema1.History_ Sample.chain = schema1.History_ MoreSamples.chainRetagged
  /\ Main.checkManifest json.Unmarshal "library/app" Sample.chain
     = Main.checkManifest json.Unmarshal "library/app" MoreSamples.chainRetagged.
Proof.
  assert (H1 : length (schema1.FSLayers Sample.chain)
               = length (schema1.FSLayers MoreSamples.chainRetagged)) by reflexivity.
  assert (H2 : schema1.History_ Sample.chain
               = schema1.History_ MoreSamples.chainRetagged) by reflexivity.
  split; [exact H1|]. split; [exact H2|].
  exact (findings_depend_on_counts_and_history json.Unmarshal "library/app"
           Sample.chain MoreSamples.chainRetagged H1 H2).
Defined.

Lemma rootFirst_images :
  imagesOf json.Unmarshal MoreSamples.rootFirst = [Image "a" ""; Image "b" "a"].
Proof. vm_compute. reflexivity. Defined.

(** In [MoreSamples.rootFirst] the parent of the second image is the first
    image, above it: the finding is printed. *)
Lemma parent_above_on_rootFirst :
  NoDup (map ID (imagesOf json.Unmarshal MoreSamples.rootFirst))
  /\ nth_error (imagesOf json.Unmarshal MoreSamples.rootFirst) 1 = Some (Image "b" "a")
  /\ nth_error (imagesOf json.Unmarshal MoreSamples.rootFirst) 0 = Some (Image "a" "")
  /\ 0 < 1
  /\ Parent (Image "b" "a") <> ""
  /\ Parent (Image "b" "a") = ID (Image "a" "")
  /\ parentBlock "library/app" (imagesOf json.Unmarshal MoreSamples.rootFirst) 1
     = [finding "library/app" (parentNotBelow "a")].
Proof.
  assert (H0 : NoDup (map ID (imagesOf json.Unmarshal MoreSamples.rootFirst))).
  { rewrite rootFirst_images. simpl. constructor.
    - intros [H|[]]. discriminate.
    - constructor; [intros []|constructor]. }
  assert (H1 : nth_error (imagesOf json.Unmarshal MoreSamples.rootFirst) 1
               = Some (Image "b" "a")) by (rewrite rootFirst_images; reflexivity).
  assert (H2 : nth_error (imagesOf json.Unmarshal MoreSamples.rootFirst) 0
               = Some (Image "a" "")) by (rewrite rootFirst_images; reflexivity).
  assert (H3 : 0 < 1) by lia.
  assert (H4 : Parent (Image "b" "a") <> "") by discriminate.
  assert (H5 : Parent (Image "b" "a") = ID (Image "a" "")) by reflexivity.
  repeat (split; [assumption|]).
  exact (proj1 (parent_above_is_reported json.Unmarshal "library/app"
                  MoreSamples.rootFirst 1 0 (Image "b" "a") (Image "a" "")
                  H0 H1 H2 H3 H4 H5)).
Defined.

(** ** More on the repository names *)

Lemma stripPlus_empty (line : string) :
  nonEmpty line = true -> (Main.stripPlus line = "" <-> line = "+").
Proof.
  destruct line as [|c tail]; [discriminate|]. intros _. simpl.
  destruct (Ascii.eqb c "+") eqn:E.
  - apply Ascii.eqb_eq in E. subst c. split; [now intros ->|now intros [= ->]].
  - split; [discriminate|]. intros [= -> _]. discriminate.
Qed.

Lemma stripPlus_origin (line : string) :
  Main.stripPlus line = line \/ line = String "+" (Main.stripPlus line).
Proof.
  destruct line as [|c tail]; [now left|]. simpl.
  destruct (Ascii.eqb c "+") eqn:E; [|now left].
  apply Ascii.eqb_eq in E. subst c. now right.
Qed.

(** X6: the resolved list holds the empty name exactly when the file has a
    line that is just "+"; every resolved name is a line of the file, as it
    stands or with its '+' taken off; the list has one name per non-empty
    line; the names read so far stay in front.  Both revisions. *)
Theorem resolved_names_come_from_lines (lines repos : list string) :
  (In "" (Main.readRepos lines []) <-> In "+" lines)
  /\ (forall name, In name (Main.readRepos lines []) ->
                   In name lines \/ In (String "+" name) lines)
  /\ length (Main.readRepos lines []) = length (filter nonEmpty lines)
  /\ length (Main.readRepos lines []) <= length lines
  /\ Main.readRepos lines repos = repos ++ Main.readRepos lines []
  /\ Part000.readRepos lines repos = Main.readRepos lines repos.
Proof.
  split; [|split; [|split; [|split; [|split]]]];
    [| | | | |apply readRepos_same]; rewrite !readRepos_spec; simpl; try reflexivity.
  - rewrite in_map_iff. split.
    + intros [line [Hs Hin]]. apply filter_In in Hin as [Hin Hne].
      apply (stripPlus_empty line Hne) in Hs. now subst line.
    + intros Hin. exists "+". split; [reflexivity|]. now apply filter_In.
  - intros name Hin. apply in_map_iff in Hin as [line [Hs Hin]].
    apply filter_In in Hin as [Hin _]. subst name.
    destruct (stripPlus_origin line) as [->|Hplus]; [now left|].
    right. now rewrite <- Hplus.
  - apply length_map.
  - rewrite length_map. apply filter_length_le.
Qed.

Lemma nth_error_fillBuffer (written : list string) (size k : nat) :
  k < size ->
  nth_error (fillBuffer written (repeat "" size)) k = Some (nth k written "").
Proof.
  intros Hk. unfold fillBuffer. rewrite repeat_length.
  rewrite nth_error_firstn.
  assert (E : Nat.ltb k size = true) by now apply Nat.ltb_lt.
  rewrite E.
  destruct (Nat.lt_ge_cases k (length written)) as [Hlt|Hge].
  - rewrite nth_error_app1 by assumption. now apply nth_error_nth'.
  - rewrite nth_error_app2 by assumption. rewrite nth_error_skipn.
    replace (length written + (k - length written)) with k by lia.
    rewrite (nth_overflow written "" Hge).
    now rewrite nth_error_repeat.
Qed.

(** X7: without a repository-list file and without an error other than
    [io.EOF], the count the registry returns is trusted.  A negative count
    [n] is the run-time panic "slice bounds out of range [:n]"; the count
    500000, and no other, is the panic "too many repositories"; a count
    above 500000 is the run-time panic "slice bounds out of range [:n] with
    capacity 500000"; a count [n] from 0 to 499999 gives exactly [n] names,
    the [k]-th being what the registry wrote at index [k], or the empty
    name where it wrote nothing. *)
Theorem enumeration_count_is_trusted
  (env : Env schema1.SignedManifest) (written : list string) (n : Z) (err : option error) :
  Repositories (newRegistry env) (Z.to_nat 500000) "" = (written, n, err) ->
  err = None \/ err = Some EOF ->
  ((n < 0)%Z ->
   Main.resolveRepos env ""
   = Fatal ("runtime error: slice bounds out of range [:" ++ decimal n ++ "]"))
  /\ (n = 500000%Z -> Main.resolveRepos env "" = Fatal "too many repositories")
  /\ ((500000 < n)%Z ->
      Main.resolveRepos env ""
      = Fatal ("runtime error: slice bounds out of range [:" ++ decimal n
               ++ "] with capacity 500000"))
  /\ ((0 <= n < 500000)%Z ->
      exists repos,
        Main.resolveRepos env "" = Repos repos
        /\ length repos = Z.to_nat n
        /\ forall k, k < Z.to_nat n -> nth_error repos k = Some (nth k written ""))
  /\ decimal (-1) = "-1"
  /\ decimal 500001 = "500001".
Proof.
  intros Hcall Herr.
  assert (Hres : Main.resolveRepos env ""
                 = if (n =? maxRepos)%Z then Fatal "too many repositories"
                   else slice_to (fillBuffer written (repeat "" (Z.to_nat 500000))) n).
  { unfold Main.resolveRepos. simpl String.eqb. cbv iota. simpl negb. cbv iota.
    rewrite repeat_length. change (Z.to_nat maxRepos) with (Z.to_nat 500000).
    rewrite Hcall. destruct Herr as [->| ->]; reflexivity. }
  rewrite Hres. unfold slice_to. rewrite fillBuffer_length, repeat_length.
  rewrite Z2Nat.id by lia.
  split; [|split; [|split; [|split; [|split; reflexivity]]]].
  - intros Hn.
    assert (E : (n =? maxRepos)%Z = false) by (apply Z.eqb_neq; unfold maxRepos; lia).
    assert (B : (n <? 0)%Z = true) by (apply Z.ltb_lt; lia).
    now rewrite E, B.
  - intros ->. reflexivity.
  - intros Hn.
    assert (E : (n =? maxRepos)%Z = false) by (apply Z.eqb_neq; unfold maxRepos; lia).
    assert (B0 : (n <? 0)%Z = false) by (apply Z.ltb_ge; lia).
    assert (B1 : (500000 <? n)%Z = true) by (apply Z.ltb_lt; lia).
    now rewrite E, B0, B1.
  - intros Hn.
    assert (E : (n =? maxRepos)%Z = false) by (apply Z.eqb_neq; unfold maxRepos; lia).
    assert (B0 : (n <? 0)%Z = false) by (apply Z.ltb_ge; lia).
    assert (B1 : (500000 <? n)%Z = false) by (apply Z.ltb_ge; lia).
    rewrite E, B0, B1. eexists. split; [reflexivity|]. split.
    + rewrite length_firstn, fillBuffer_length, repeat_length. lia.
    + intros k Hk. rewrite nth_error_firstn.
      assert (Ek : Nat.ltb k (Z.to_nat n) = true) by now apply Nat.ltb_lt.
      rewrite Ek. apply nth_error_fillBuffer. lia.
Qed.

(** A registry that reports a count of -1 and the end of the listing: the
    run ends in the run-time panic on the slice expression. *)
Lemma negative_enumeration_count :
  Repositories (newRegistry MoreSamples.negativeCountEnv) (Z.to_nat 500000) ""
  = ([], (-1)%Z, Some EOF)
  /\ (Some EOF = None \/ Some EOF = Some EOF)
  /\ Main.resolveRepos MoreSamples.negativeCountEnv ""
     = Fatal "runtime error: slice bounds out of range [:-1]".
Proof.
  assert (H1 : Repositories (newRegistry MoreSamples.negativeCountEnv) (Z.to_nat 500000) ""
               = ([], (-1)%Z, Some EOF)) by reflexivity.
  assert (H2 : Some EOF = None \/ Some EOF = Some EOF) by now right.
  split; [exact H1|]. split; [exact H2|].
  destruct (enumeration_count_is_trusted MoreSamples.negativeCountEnv
              [] (-1) (Some EOF) H1 H2) as [Hneg _].
  apply Hneg. lia.
Defined.

(** ** [main] of the two revisions up to the scan *)
Section SameSetup.

Variable Unmarshal : string -> image -> image * option error.

Lemma resolveRepos_same (env : Env manifest.SignedManifest) (reposPath : string) :
  Part000.resolveRepos env reposPath = Main.resolveRepos (to_schema1_env env) reposPath.
Proof.
  unfold Part000.resolveRepos, Main.resolveRepos.
  cbn [to_schema1_env openRepos newRegistry to_schema1_registry Repositories].
  destruct (negb (String.eqb reposPath "")); [|reflexivity].
  destruct (openRepos env reposPath) as [lines|]; [|reflexivity].
  now rewrite readRepos_same.
Qed.

(** X8: on the same environment the two revisions resolve the same list
    of repositories and stop before the scan in the same cases, with the
    same panic; part_000 then scans the list main.go hands to its pool.
    Without [-config] both print the message and the usage and return,
    main.go on standard error and part_000 on standard output. *)
Theorem revisions_agree_up_to_the_scan
  (env : Env manifest.SignedManifest) (configPath reposPath : string) :
  Part000.resolveRepos env reposPath = Main.resolveRepos (to_schema1_env env) reposPath
  /\ (configPath = "" ->
      Main.prepare (to_schema1_env env) configPath reposPath
      = Main.Stop [Stderr usageMessage; Usage] Returned
      /\ Part000.main Unmarshal env configPath reposPath
         = ([Stdout usageMessage; Usage], ([], Returned)))
  /\ (configPath <> "" ->
      forall printed o,
        Main.prepare (to_schema1_env env) configPath reposPath = Main.Stop printed o ->
        printed = []
        /\ (exists msg, o = Panicked msg)
        /\ Part000.main Unmarshal env configPath reposPath = ([], ([], o)))
  /\ (forall repos,
         Main.prepare (to_schema1_env env) configPath reposPath = Main.Scan repos ->
         Part000.main Unmarshal env configPath reposPath
         = Part000.scanRepos Unmarshal (newRegistry env) repos).
Proof.
  split; [apply resolveRepos_same|].
  unfold Main.prepare, Part000.main. rewrite resolveRepos_same.
  cbn [to_schema1_env openConfig parseConfig createDriver].
  split; [|split].
  - intros ->. simpl. split; reflexivity.
  - intros Hc printed o. apply String.eqb_neq in Hc. rewrite Hc.
    destruct (openConfig env configPath);
      [intros [= <- <-]; split; [reflexivity|split; [eauto|reflexivity]]|].
    destruct (parseConfig env);
      [intros [= <- <-]; split; [reflexivity|split; [eauto|reflexivity]]|].
    destruct (createDriver env);
      [intros [= <- <-]; split; [reflexivity|split; [eauto|reflexivity]]|].
    destruct (Main.resolveRepos _ reposPath); [discriminate|].
    intros [= <- <-]. split; [reflexivity|split; [eauto|reflexivity]].
  - intros repos. destruct (String.eqb configPath ""); [discriminate|].
    destruct (openConfig env configPath); [discriminate|].
    destruct (parseConfig env); [discriminate|].
    destruct (createDriver env); [discriminate|].
    destruct (Main.resolveRepos _ reposPath); [|discriminate].
    now intros [= ->].
Qed.

End SameSetup.

(** ** The sequential scan *)
Section SequentialExtras.

Variable Unmarshal : string -> image -> image * option error.
Variable registry : Namespace manifest.SignedManifest.

(** X9: the sequential scan of part_000 visits a prefix of the list, in
    order, and prints what [checkRepo] prints for the repositories of that
    prefix.  It returns exactly when no repository of the list fails, and
    then it has visited them all; otherwise it panics with the error of the
    last repository it visited, which is the first that fails. *)
Theorem sequential_scan_visits_a_prefix (repos : list string) :
  let printed := fst (Part000.scanRepos Unmarshal registry repos) in
  let visited := fst (snd (Part000.scanRepos Unmarshal registry repos)) in
  let ending := snd (snd (Part000.scanRepos Unmarshal registry repos)) in
  (exists rest, repos = visited ++ rest)
  /\ printed = flat_map (fun r => fst (Part000.checkRepo Unmarshal registry r)) visited
  /\ (ending = Returned
      <-> forall r, In r repos -> snd (Part000.checkRepo Unmarshal registry r) = None)
  /\ (ending = Returned -> visited = repos)
  /\ (forall msg,
         ending = Panicked msg ->
         exists before r e,
           visited = before ++ [r]
           /\ (forall r', In r' before ->
                          snd (Part000.checkRepo Unmarshal registry r') = None)
           /\ snd (Part000.checkRepo Unmarshal registry r) = Some e
           /\ msg = Error e).
Proof.
  induction repos as [|repoName rest IH]; simpl.
  - split; [now exists []|]. split; [reflexivity|]. split; [|split].
    + split; [intros _ r []|reflexivity].
    + reflexivity.
    + discriminate.
  - rewrite fst_bind, !snd_bind.
    destruct (Part000.checkRepo Unmarshal registry repoName) as [o [e|]] eqn:Hc; simpl.
    + split; [now exists rest|]. split; [now rewrite Hc|]. split; [|split].
      * split; [discriminate|]. intros H.
        specialize (H repoName (or_introl eq_refl)). rewrite Hc in H. discriminate.
      * discriminate.
      * intros msg [= <-]. exists [], repoName, e. rewrite Hc. simpl.
        split; [reflexivity|]. split; [intros r' []|]. split; reflexivity.
    + rewrite fst_bind, !snd_bind. simpl. rewrite app_nil_r.
      destruct IH as [[rest' Hpre] [Hout [Hret [Hall Hpanic]]]].
      split; [exists rest'; now rewrite <- Hpre|]. split; [now rewrite Hc, Hout|].
      split; [|split].
      * rewrite Hret. split.
        { intros H r [<-|Hin]; [now rewrite Hc|auto]. }
        { intros H r Hin. apply H. now right. }
      * intros H. now rewrite (Hall H).
      * intros msg H. destruct (Hpanic msg H) as [before [r [e [Hv [Hok [Hr He]]]]]].
        exists (repoName :: before), r, e. rewrite Hv. split; [reflexivity|].
        split; [|split; assumption].
        intros r' [<-|Hin]; [now rewrite Hc|auto].
Qed.

End SequentialExtras.

(** ** More on the worker pool *)
Section PoolExtras.

Variable Unmarshal : string -> image -> image * option error.
Variable registry : Namespace schema1.SignedManifest.

Lemma finished_is_stuck (s s' : Main.pool) :
  Main.finished s = true -> Main.step Unmarshal registry s s' -> False.
Proof.
  unfold Main.finished. intros Hf Hstep.
  apply andb_true_iff in Hf as [Hclosed Hall].
  destruct Hstep; simpl in Hclosed, Hall; try discriminate;
    rewrite forallb_app in Hall; apply andb_true_iff in Hall as [_ Hall];
    simpl in Hall; discriminate.
Qed.

(** X10: in every state the pool reaches, the names handed to workers so
    far followed by the names still to send are the list, so names go out
    in order, each once; there are 30 workers; the channel is closed only
    once every name is sent, and no worker leaves before that. *)
Theorem names_go_out_in_order (repos : list string) (s : Main.pool) :
  Main.reaches Unmarshal registry (Main.start repos) s ->
  Main.visited s ++ Main.queue s = repos
  /\ length (Main.workers s) = 30
  /\ (Main.closed s = true -> Main.queue s = [])
  /\ (Main.closed s = false -> forall w, In w (Main.workers s) -> w <> Main.Exited)
  /\ length (filter (fun w => negb (Nat.eqb (length (pending w)) 0)) (Main.workers s)) <= 30.
Proof.
  intros Hreach.
  destruct (reaches_invariant Unmarshal registry repos s Hreach)
    as [Hq [_ [Hc [He Hl]]]].
  split; [exact Hq|]. split; [exact Hl|]. split; [exact Hc|]. split.
  - intros Hopen w Hin ->. specialize (He Hopen).
    rewrite forallb_forall in He. specialize (He _ Hin). discriminate.
  - change 30 with Main.poolWidth. rewrite <- Hl. apply filter_length_le.
Qed.

(** X11: a state the pool reaches has finished exactly when it can take no
    step: the pool neither stops early nor goes on after [wg.Wait()]
    returns. *)
Theorem finished_iff_no_step (repos : list string) (s : Main.pool) :
  Main.reaches Unmarshal registry (Main.start repos) s ->
  (Main.finished s = true <-> forall s', ~ Main.step Unmarshal registry s s').
Proof.
  intros Hreach. split.
  - intros Hf s' Hstep. exact (finished_is_stuck s s' Hf Hstep).
  - intros Hstuck.
    destruct (pool_progress Unmarshal registry repos s
                (reaches_invariant Unmarshal registry repos s Hreach))
      as [Hf|[s' Hstep]]; [exact Hf|].
    exfalso. exact (Hstuck s' Hstep).
Qed.

Lemma step_measure_exact (s s' : Main.pool) :
  Main.step Unmarshal registry s s' ->
  measure Unmarshal registry s = S (measure Unmarshal registry s').
Proof.
  intros H. destruct H; unfold measure; simpl;
    rewrite ?list_sum_weight_app; unfold cost; simpl; lia.
Qed.

Lemma reachesIn_reaches (s s' : Main.pool) (n : nat) :
  reachesIn Unmarshal registry s n s' -> Main.reaches Unmarshal registry s s'.
Proof.
  induction 1 as [|n s1 s2 _ IH Hstep]; [constructor|].
  exact (Main.reaches_step _ _ _ _ _ IH Hstep).
Qed.

Lemma list_sum_weight_receiving (n : nat) :
  list_sum (map weight (repeat Main.Receiving n)) = n.
Proof. induction n as [|n IH]; simpl; [reflexivity|now rewrite IH]. Qed.

Lemma finished_measure (repos : list string) (s : Main.pool) :
  invariant Unmarshal registry repos s ->
  Main.finished s = true ->
  measure Unmarshal registry s = 0.
Proof.
  intros [_ [_ [Hc _]]] Hf. unfold Main.finished in Hf.
  apply andb_true_iff in Hf as [Hclosed Hall].
  unfold measure. rewrite (Hc Hclosed), Hclosed. simpl.
  assert (H : list_sum (map weight (Main.workers s)) = 0).
  { induction (Main.workers s) as [|w ws IH]; [reflexivity|].
    simpl in Hall. apply andb_true_iff in Hall as [Hw Hws].
    destruct w; try discriminate. simpl. now apply IH. }
  lia.
Qed.

Lemma list_sum_running_app (ws1 ws2 : list Main.worker) :
  list_sum (map running (ws1 ++ ws2))
  = list_sum (map running ws1) + list_sum (map running ws2).
Proof. now rewrite map_app, list_sum_app. Qed.

Lemma list_sum_gone_app (ws1 ws2 : list Main.worker) :
  list_sum (map gone (ws1 ++ ws2)) = list_sum (map gone ws1) + list_sum (map gone ws2).
Proof. now rewrite map_app, list_sum_app. Qed.

Lemma list_sum_receiving (n : nat) :
  list_sum (map running (repeat Main.Receiving n)) = 0
  /\ list_sum (map gone (repeat Main.Receiving n)) = 0.
Proof. induction n as [|n [IH1 IH2]]; simpl; auto. Qed.

(** Every step is one action of the program, and the state keeps count of
    them. *)
Lemma steps_are_actions (repos : list string) (n : nat) (s : Main.pool) :
  reachesIn Unmarshal registry (Main.start repos) n s ->
  n + list_sum (map running (Main.workers s))
  = 2 * length (Main.visited s) + length (Main.out s)
    + (if Main.closed s then 1 else 0) + list_sum (map gone (Main.workers s)).
Proof.
  induction 1 as [|n s1 s2 _ IH Hstep].
  - unfold Main.start. cbn [Main.workers Main.visited Main.out Main.closed].
    destruct (list_sum_receiving Main.poolWidth) as [-> ->]. reflexivity.
  - destruct Hstep; cbn [Main.workers Main.visited Main.out Main.closed] in *;
      rewrite ?list_sum_running_app, ?list_sum_gone_app, ?length_app in *;
      simpl in *; lia.
Qed.

Lemma finished_workers (s : Main.pool) :
  Main.finished s = true ->
  list_sum (map running (Main.workers s)) = 0
  /\ list_sum (map gone (Main.workers s)) = length (Main.workers s).
Proof.
  unfold Main.finished. intros Hf. apply andb_true_iff in Hf as [_ Hall].
  induction (Main.workers s) as [|w ws IH]; [auto|].
  simpl in Hall. apply andb_true_iff in Hall as [Hw Hws].
  destruct w; try discriminate. destruct (IH Hws) as [IH1 IH2].
  simpl. rewrite IH1, IH2. auto.
Qed.

Lemma length_flat_map_visit (repos : list string) :
  length (flat_map (Main.visit Unmarshal registry) repos)
  = list_sum (map (fun r => length (Main.visit Unmarshal registry r)) repos).
Proof.
  induction repos as [|r repos IH]; [reflexivity|].
  simpl. now rewrite length_app, IH.
Qed.

(** X12: every step of the pool is one action of the program: a receive
    from the channel, the printing of one line, a worker's return to its
    [range], the [close] of the channel, or a [wg.Done].  After [n]
    actions, [n] plus the number of workers that are in a visit is twice
    the number of names received plus the lines printed plus the workers
    that have left, plus one once the channel is closed; the actions taken
    and the bound that is left add up to the bound at the start.  So a run
    that has ended received every name of the list, printed as many lines
    as the visits have, saw its 30 workers leave, and took two actions per
    name, one per line and 31 more, whatever the scheduler chose. *)
Theorem pool_takes_a_fixed_number_of_steps (repos : list string) (n : nat) (s : Main.pool) :
  reachesIn Unmarshal registry (Main.start repos) n s ->
  n + measure Unmarshal registry s
  = list_sum (map (fun r => 2 + length (Main.visit Unmarshal registry r)) repos) + 31
  /\ n + list_sum (map running (Main.workers s))
     = 2 * length (Main.visited s) + length (Main.out s)
       + (if Main.closed s then 1 else 0) + list_sum (map gone (Main.workers s))
  /\ (Main.finished s = true ->
      n = list_sum (map (fun r => 2 + length (Main.visit Unmarshal registry r)) repos) + 31
      /\ n = 2 * length repos
             + list_sum (map (fun r => length (Main.visit Unmarshal registry r)) repos)
             + 31
      /\ length (Main.visited s) = length repos
      /\ length (Main.out s)
         = list_sum (map (fun r => length (Main.visit Unmarshal registry r)) repos)
      /\ list_sum (map gone (Main.workers s)) = 30).
Proof.
  intros Hreach.
  assert (Hsum : n + measure Unmarshal registry s
                 = list_sum (map (fun r => 2 + length (Main.visit Unmarshal registry r))
                                 repos) + 31).
  { clear -Hreach. induction Hreach as [|n s1 s2 _ IH Hstep].
    - unfold measure, Main.start. cbn [Main.queue Main.workers Main.closed].
      rewrite list_sum_weight_receiving. unfold cost, Main.poolWidth. lia.
    - rewrite (step_measure_exact s1 s2 Hstep) in IH. lia. }
  pose proof (steps_are_actions repos n s Hreach) as Hcount.
  split; [exact Hsum|]. split; [exact Hcount|].
  intros Hf.
  pose proof (reaches_invariant Unmarshal registry repos s
                (reachesIn_reaches _ _ _ Hreach)) as Hinv.
  rewrite (finished_measure repos s Hinv Hf) in Hsum.
  destruct (pool_finished Unmarshal registry repos s Hinv Hf) as [Hv Hperm].
  destruct (finished_workers s Hf) as [Hrun Hgone].
  assert (Hwidth : length (Main.workers s) = 30) by apply Hinv.
  assert (Hout : length (Main.out s)
                 = list_sum (map (fun r => length (Main.visit Unmarshal registry r)) repos)).
  { rewrite (Permutation_length Hperm). apply length_flat_map_visit. }
  assert (Hclosed : Main.closed s = true).
  { unfold Main.finished in Hf. now apply andb_true_iff in Hf as [Hc _]. }
  rewrite Hrun, Hgone, Hwidth, Hclosed, Hv, Hout in Hcount.
  split; [lia|]. split; [lia|]. split; [now rewrite Hv|]. split; [exact Hout|].
  now rewrite Hgone.
Qed.

End PoolExtras.

(** The run of [MoreSamples.interleaved] on the two names "broken" and
    "library/app" has 38 actions: two receives, three lines, two returns
    to the [range], the [close] and 30 [wg.Done]. *)
Lemma interleaved_run_takes_38_steps :
  reachesIn json.Unmarshal (Sample.registryOf Sample.orphan)
            (Main.start ["broken"; "library/app"]) 38 MoreSamples.interleavedEnd
  /\ 38 = 2 * length ["broken"; "library/app"]
          + list_sum (map (fun r => length (Main.visit json.Unmarshal
                                              (Sample.registryOf Sample.orphan) r))
                          ["broken"; "library/app"])
          + 31
  /\ length (Main.out MoreSamples.interleavedEnd) = 3.
Proof.
  assert (H : reachesIn json.Unmarshal (Sample.registryOf Sample.orphan)
                        (Main.start ["broken"; "library/app"]) 38
                        MoreSamples.interleavedEnd).
  { apply (play_reachesIn json.Unmarshal (Sample.registryOf Sample.orphan)
             MoreSamples.interleaved).
    vm_compute. reflexivity. }
  split; [exact H|].
  destruct (pool_takes_a_fixed_number_of_steps json.Unmarshal
              (Sample.registryOf Sample.orphan) ["broken"; "library/app"] 38 _ H)
    as [_ [_ Hfin]].
  destruct (Hfin eq_refl) as [_ [Hn _]].
  split; [exact Hn|reflexivity].
Defined.

(** The pool on three names after two of them are handed out and one line
    is printed: the two names are with workers, in the order of the list,
    and the third is still to be sent. *)
Lemma two_of_three_names_handed_out :
  Main.reaches json.Unmarshal (Sample.registryOf Sample.orphan)
               (Main.start MoreSamples.threeNames) MoreSamples.handedOut
  /\ Main.visited MoreSamples.handedOut ++ Main.queue MoreSamples.handedOut
     = MoreSamples.threeNames
  /\ Main.visited MoreSamples.handedOut = ["broken"; "library/app"]
  /\ Main.queue MoreSamples.handedOut = ["library/db"].
Proof.
  assert (H : Main.reaches json.Unmarshal (Sample.registryOf Sample.orphan)
                           (Main.start MoreSamples.threeNames) MoreSamples.handedOut).
  { apply (play_reaches json.Unmarshal (Sample.registryOf Sample.orphan)
             MoreSamples.handOut).
    vm_compute. reflexivity. }
  split; [exact H|].
  split; [|split; reflexivity].
  exact (proj1 (names_go_out_in_order json.Unmarshal (Sample.registryOf Sample.orphan)
                  MoreSamples.threeNames _ H)).
Defined.


(** ** Order of the lines of one repository *)
Section LineOrder.

Variable Unmarshal : string -> image -> image * option error.
Variable registry : Namespace schema1.SignedManifest.

Lemma subsequence_app_r {A} (p l : list A) (e : A) :
  subsequence p l -> subsequence p (l ++ [e]).
Proof.
  induction 1; simpl; constructor; assumption.
Qed.

Lemma subsequence_snoc {A} (p l : list A) (e : A) :
  subsequence p l -> subsequence (p ++ [e]) (l ++ [e]).
Proof.
  induction 1 as [l|p a l _ IH|p a l _ IH]; simpl.
  - induction l as [|a l IH]; simpl.
    + apply subsequence_take. constructor.
    + now apply subsequence_skip.
  - now apply subsequence_skip.
  - now apply subsequence_take.
Qed.

Lemma In_replaced {A} (x a b : A) (l1 l2 : list A) :
  In x (l1 ++ a :: l2) -> x = a \/ In x (l1 ++ b :: l2).
Proof.
  rewrite !in_app_iff. simpl. intros [H|[H|H]]; auto.
Qed.

Lemma tracked_step (s s' : Main.pool) (repoName : string) :
  Main.step Unmarshal registry s s' ->
  tracked Unmarshal registry s repoName ->
  tracked Unmarshal registry s' repoName.
Proof.
  intros Hstep [printed [rest [Hsplit [Hsub Hrest]]]].
  destruct Hstep; simpl in *.
  - exists printed, rest. split; [exact Hsplit|]. split; [exact Hsub|].
    destruct Hrest as [->|Hin]; [now left|right].
    destruct (In_replaced _ _ (Main.Running (Main.visit Unmarshal registry repoName0))
                          _ _ Hin) as [H|H]; [discriminate|exact H].
  - destruct Hrest as [->|Hin].
    + exists printed, []. split; [exact Hsplit|].
      split; [now apply subsequence_app_r|now left].
    + destruct (In_replaced _ _ (Main.Running todo) _ _ Hin) as [H|H].
      * injection H as ->. exists (printed ++ [e]), todo.
        split; [now rewrite <- app_assoc|]. split; [now apply subsequence_snoc|].
        right. apply in_or_app. right. now left.
      * exists printed, rest. split; [exact Hsplit|].
        split; [now apply subsequence_app_r|now right].
  - exists printed, rest. split; [exact Hsplit|]. split; [exact Hsub|].
    destruct Hrest as [->|Hin]; [now left|].
    destruct (In_replaced _ _ Main.Receiving _ _ Hin) as [H|H];
      [injection H as ->; now left|now right].
  - exists printed, rest. auto.
  - exists printed, rest. split; [exact Hsplit|]. split; [exact Hsub|].
    destruct Hrest as [->|Hin]; [now left|right].
    destruct (In_replaced _ _ Main.Exited _ _ Hin) as [H|H]; [discriminate|exact H].
Qed.

Lemma visited_tracked (repos : list string) (s : Main.pool) :
  Main.reaches Unmarshal registry (Main.start repos) s ->
  forall repoName, In repoName (Main.visited s) -> tracked Unmarshal registry s repoName.
Proof.
  induction 1 as [|s1 s2 _ IH Hstep]; intros repoName Hin.
  - destruct Hin.
  - assert (Hold : In repoName (Main.visited s1) -> tracked Unmarshal registry s2 repoName).
    { intros H. exact (tracked_step s1 s2 repoName Hstep (IH repoName H)). }
    destruct Hstep; simpl in *; auto.
    apply in_app_or in Hin as [Hin|[<-|[]]]; [auto|].
    exists [], (Main.visit Unmarshal registry repoName0).
    split; [reflexivity|]. split; [constructor|].
    right. apply in_or_app. right. now left.
Qed.

Lemma visit_order_at_the_end (repos : list string) (s : Main.pool) :
  Main.reaches Unmarshal registry (Main.start repos) s ->
  Main.finished s = true ->
  forall repoName,
    In repoName repos ->
    subsequence (Main.visit Unmarshal registry repoName) (Main.out s).
Proof.
  intros Hreach Hfin repoName Hin.
  pose proof (reaches_invariant Unmarshal registry repos s Hreach) as Hinv.
  destruct (pool_finished Unmarshal registry repos s Hinv Hfin) as [Hv _].
  rewrite <- Hv in Hin.
  destruct (visited_tracked repos s Hreach repoName Hin)
    as [printed [rest [Hsplit [Hsub [->|Hrun]]]]].
  - now rewrite Hsplit, app_nil_r.
  - exfalso. unfold Main.finished in Hfin.
    apply andb_true_iff in Hfin as [_ Hall].
    rewrite forallb_forall in Hall. specialize (Hall _ Hrun). discriminate.
Qed.

(** X13: at every moment the lines of a repository that has been received
    split into those already printed, which stand in the output in their
    order, and a rest that is empty or that one worker has still to print;
    so when the pool has finished, the lines of the visit of every
    repository of the list stand in the output in the order in which the
    visit printed them, whatever other workers printed in between. *)
Theorem lines_of_a_visit_keep_their_order (repos : list string) (s : Main.pool) :
  Main.reaches Unmarshal registry (Main.start repos) s ->
  (forall repoName,
      In repoName (Main.visited s) ->
      exists printed rest,
        Main.visit Unmarshal registry repoName = printed ++ rest
        /\ subsequence printed (Main.out s)
        /\ (rest = [] \/ In (Main.Running rest) (Main.workers s)))
  /\ (Main.finished s = true ->
      forall repoName,
        In repoName repos ->
        subsequence (Main.visit Unmarshal registry repoName) (Main.out s)).
Proof.
  intros Hreach. split.
  - exact (visited_tracked repos s Hreach).
  - exact (visit_order_at_the_end repos s Hreach).
Qed.

End LineOrder.

(** ** A whole run of the pool *)

Lemma workers_leave (Unmarshal : string -> image -> image * option error)
      (registry : Namespace schema1.SignedManifest)
      (o : list event) (v : list string) :
  forall n k,
    Main.reaches Unmarshal registry
      (Main.Pool [] true (repeat Main.Exited k ++ repeat Main.Receiving n) o v)
      (Main.Pool [] true (repeat Main.Exited (k + n)) o v).
Proof.
  induction n as [|n IH]; intros k.
  - simpl. rewrite app_nil_r, Nat.add_0_r. constructor.
  - apply reaches_step_first
      with (Main.Pool [] true (repeat Main.Exited (S k) ++ repeat Main.Receiving n) o v).
    + change (repeat Main.Receiving (S n)) with (Main.Receiving :: repeat Main.Receiving n).
      change (repeat Main.Exited (S k)) with (Main.Exited :: repeat Main.Exited k).
      rewrite (repeat_cons k Main.Exited), <- app_assoc.
      apply Main.step_exit.
    + replace (k + S n) with (S k + n) by lia. apply IH.
Qed.

(** The pool on the one name "broken": the name is received, its error
    line is printed, the channel is closed and the 30 workers leave. *)
Lemma pool_run_on_broken :
  Main.reaches json.Unmarshal (Sample.registryOf Sample.chain)
    (Main.start ["broken"])
    (Main.Pool [] true (repeat Main.Exited 30)
               [Stderr ("unexpected error getting repository: repository unknown" ++ nl)]
               ["broken"]).
Proof.
  apply reaches_step_first
    with (Main.Pool [] false
            ([] ++ Main.Running (Main.visit json.Unmarshal (Sample.registryOf Sample.chain)
                                            "broken")
                :: repeat Main.Receiving 29) [] ([] ++ ["broken"])).
  { exact (Main.step_receive json.Unmarshal (Sample.registryOf Sample.chain)
             "broken" [] [] (repeat Main.Receiving 29) [] []). }
  apply reaches_step_first
    with (Main.Pool [] false ([] ++ Main.Running [] :: repeat Main.Receiving 29)
            ([] ++ [Stderr ("unexpected error getting repository: repository unknown"
                            ++ nl)])
            ["broken"]).
  { exact (Main.step_print json.Unmarshal (Sample.registryOf Sample.chain)
             [] false [] _ [] (repeat Main.Receiving 29) [] ["broken"]). }
  apply reaches_step_first
    with (Main.Pool [] false ([] ++ Main.Receiving :: repeat Main.Receiving 29)
            [Stderr ("unexpected error getting repository: repository unknown" ++ nl)]
            ["broken"]).
  { apply Main.step_next. }
  apply reaches_step_first
    with (Main.Pool [] true (repeat Main.Exited 0 ++ repeat Main.Receiving 30)
            [Stderr ("unexpected error getting repository: repository unknown" ++ nl)]
            ["broken"]).
  { apply Main.step_close. }
  exact (workers_leave json.Unmarshal (Sample.registryOf Sample.chain) _ _ 30 0).
Defined.

(** In that run the one line of "broken" is in the output. *)
Lemma order_on_broken :
  Main.reaches json.Unmarshal (Sample.registryOf Sample.chain)
    (Main.start ["broken"])
    (Main.Pool [] true (repeat Main.Exited 30)
               [Stderr ("unexpected error getting repository: repository unknown" ++ nl)]
               ["broken"])
  /\ subsequence (Main.visit json.Unmarshal (Sample.registryOf Sample.chain) "broken")
                 [Stderr ("unexpected error getting repository: repository unknown" ++ nl)].
Proof.
  split; [exact pool_run_on_broken|].
  exact (proj2 (lines_of_a_visit_keep_their_order json.Unmarshal
                  (Sample.registryOf Sample.chain) ["broken"] _ pool_run_on_broken)
               eq_refl "broken" (or_introl eq_refl)).
Defined.

(** ** The runs of [main] of main.go *)

(** X14: [main] always has a run.  A run that ends in a panic has printed
    nothing; a run that returns either had no [-config] and printed the
    message and the usage on standard error, or scanned the list the
    resolution gave: it printed the lines of the visits, those of each
    repository in their order. *)
Theorem main_prints_nothing_before_a_panic
  (Unmarshal : string -> image -> image * option error)
  (env : Env schema1.SignedManifest) (configPath reposPath : string) :
  (exists printed o, Main.runs Unmarshal env configPath reposPath printed o)
  /\ (forall printed o,
         Main.runs Unmarshal env configPath reposPath printed o ->
         match o with
         | Panicked _ => printed = [] /\ configPath <> ""
         | Returned =>
             (configPath = "" /\ printed = [Stderr usageMessage; Usage])
             \/ (configPath <> ""
                 /\ exists repos,
                      Main.prepare env configPath reposPath = Main.Scan repos
                      /\ Permutation printed
                           (flat_map (Main.visit Unmarshal (newRegistry env)) repos)
                      /\ forall repoName,
                           In repoName repos ->
                           subsequence (Main.visit Unmarshal (newRegistry env) repoName)
                                       printed)
         end).
Proof.
  assert (Hstop : forall printed o,
             Main.prepare env configPath reposPath = Main.Stop printed o ->
             (configPath = "" /\ o = Returned /\ printed = [Stderr usageMessage; Usage])
             \/ (configPath <> "" /\ printed = [] /\ exists msg, o = Panicked msg)).
  { intros printed o. unfold Main.prepare.
    destruct (String.eqb configPath "") eqn:Ec.
    - apply String.eqb_eq in Ec. intros [= <- <-]. left. auto.
    - apply String.eqb_neq in Ec. intros H. right. split; [exact Ec|].
      destruct (openConfig env configPath); [injection H as <- <-; eauto|].
      destruct (parseConfig env); [injection H as <- <-; eauto|].
      destruct (createDriver env); [injection H as <- <-; eauto|].
      destruct (Main.resolveRepos env reposPath); [discriminate|].
      injection H as <- <-. eauto. }
  assert (Hscan : forall repos,
             Main.prepare env configPath reposPath = Main.Scan repos -> configPath <> "").
  { intros repos. unfold Main.prepare.
    destruct (String.eqb configPath "") eqn:Ec; [discriminate|].
    intros _. now apply String.eqb_neq. }
  split.
  - destruct (Main.prepare env configPath reposPath) as [printed o|repos] eqn:Hp.
    + exists printed, o. now apply Main.runs_stop.
    + destruct (pool_completes Unmarshal (newRegistry env) repos _ (Main.start repos)
                  (Nat.lt_succ_diag_r _)
                  (start_invariant Unmarshal (newRegistry env) repos))
        as [s' [Hrun Hfin]].
      exists (Main.out s'), Returned. now apply Main.runs_scan with repos.
  - intros printed o Hrun.
    inversion Hrun as [printed' o' Hp|repos s Hp Hreach Hfin]; subst.
    + destruct (Hstop printed o Hp) as [[Hc [-> ->]]|[Hc [-> [msg ->]]]]; auto.
    + right. split; [exact (Hscan repos Hp)|]. exists repos. split; [exact Hp|].
      pose proof (reaches_invariant Unmarshal (newRegistry env) repos s Hreach) as Hinv.
      split; [exact (proj2 (pool_finished Unmarshal (newRegistry env) repos s Hinv Hfin))|].
      exact (visit_order_at_the_end Unmarshal (newRegistry env) repos s Hreach Hfin).
Qed.

(** ** One error line per failing repository *)
Section ErrorLines.

Variable Unmarshal : string -> image -> image * option error.
Variable registry : Namespace schema1.SignedManifest.

Lemma append_assoc (a b c : string) : ((a ++ b) ++ c = a ++ (b ++ c))%string.
Proof. induction a; simpl; congruence. Qed.

Lemma prefix_append (p t : string) : String.prefix p (p ++ t) = true.
Proof.
  induction p as [|a p IH]; simpl; [now destruct t|].
  destruct (ascii_dec a a) as [_|H]; [exact IH|now elim H].
Qed.

Lemma checkManifest_prints_stdout (repoName : string) (mnfst : schema1.SignedManifest)
      (ev : event) :
  In ev (fst (Main.checkManifest Unmarshal repoName mnfst)) -> isErrorLine ev = false.
Proof.
  rewrite checkManifest_spec. simpl fst. rewrite !in_app_iff. intros [H|[H|H]].
  - unfold layerFindings in H. apply in_app_or in H as [H|H].
    + destruct (_ || _); [destruct H as [<-|[]]; reflexivity|contradiction].
    + destruct (Nat.eqb _ _); [contradiction|destruct H as [<-|[]]; reflexivity].
  - apply decodeFindings_In in H as [err ->]. reflexivity.
  - apply parentBlocks_In in H as [parent ->]. reflexivity.
Qed.

Lemma checkTags_prints_stdout (manifests : ManifestService schema1.SignedManifest)
      (repoName : string) (tags : list string) (ev : event) :
  In ev (fst (Main.checkTags Unmarshal manifests repoName tags)) -> isErrorLine ev = false.
Proof.
  induction tags as [|tag rest IH]; simpl; [intros []|].
  destruct (GetByTag manifests tag) as [mnfst|cause]; simpl; [|intros []].
  rewrite fst_bind. intros H. apply in_app_or in H as [H|H].
  - now apply checkManifest_prints_stdout in H.
  - rewrite (checkManifest_spec Unmarshal) in H. simpl in H. auto.
Qed.

Lemma checkRepo_prints_no_error_line (repoName : string) :
  filter isErrorLine (fst (Main.checkRepo Unmarshal registry repoName)) = [].
Proof.
  assert (H : forall ev, In ev (fst (Main.checkRepo Unmarshal registry repoName)) ->
                         isErrorLine ev = false).
  { unfold Main.checkRepo.
    destruct (OpenRepository registry repoName) as [repo|]; [|intros ev []].
    destruct (Manifests repo) as [manifests|]; [|intros ev []].
    destruct (Tags manifests) as [tags|]; [|intros ev []].
    rewrite fst_bind. simpl. intros ev [<-|H]; [reflexivity|].
    now apply checkTags_prints_stdout in H. }
  induction (fst (Main.checkRepo Unmarshal registry repoName)) as [|ev l IH];
    [reflexivity|].
  simpl. rewrite (H ev (or_introl eq_refl)). apply IH. intros ev' Hin. apply H. now right.
Qed.

Lemma checkRepo_error_text (repoName : string) (e : error) :
  snd (Main.checkRepo Unmarshal registry repoName) = Some e ->
  exists tail, Error e = ("unexpected error getting " ++ tail)%string.
Proof.
  unfold Main.checkRepo.
  destruct (OpenRepository registry repoName) as [repo|c1];
    [|intros [= <-]; simpl; eauto].
  destruct (Manifests repo) as [manifests|c2]; [|intros [= <-]; simpl; eauto].
  destruct (Tags manifests) as [tags|c3]; [|intros [= <-]; simpl; eauto].
  rewrite snd_bind. intros H.
  destruct (checkTags_error Unmarshal manifests repoName tags e H) as [_ [c [_ [_ ->]]]].
  simpl. eauto.
Qed.

Lemma visit_error_lines (repoName : string) :
  length (filter isErrorLine (Main.visit Unmarshal registry repoName))
  = if fails Unmarshal registry repoName then 1 else 0.
Proof.
  unfold Main.visit, fails. rewrite fst_bind, filter_app, length_app.
  rewrite checkRepo_prints_no_error_line.
  destruct (snd (Main.checkRepo Unmarshal registry repoName)) as [e|] eqn:He;
    [|reflexivity].
  destruct (checkRepo_error_text repoName e He) as [tail Ht].
  cbn [print fst filter isErrorLine]. rewrite Ht, append_assoc, prefix_append.
  reflexivity.
Qed.

Lemma filter_length_Permutation {A} (f : A -> bool) (l l' : list A) :
  Permutation l l' -> length (filter f l) = length (filter f l').
Proof.
  induction 1 as [|x l l' _ IH|x y l|l l' l'' _ IH1 _ IH2]; simpl.
  - reflexivity.
  - destruct (f x); simpl; congruence.
  - destruct (f x), (f y); reflexivity.
  - congruence.
Qed.

Lemma error_lines_of_visits (repos : list string) :
  length (filter isErrorLine (flat_map (Main.visit Unmarshal registry) repos))
  = length (filter (fails Unmarshal registry) repos).
Proof.
  induction repos as [|r rest IH]; [reflexivity|].
  simpl. rewrite filter_app, length_app, visit_error_lines, IH.
  destruct (fails Unmarshal registry r); reflexivity.
Qed.

(** X15: when the pool has finished, the output holds as many error lines
    as the list has repositories for which [checkRepo] returns an error,
    one for each: none for a repository whose visit succeeds, and none is
    lost.  The error line of a failing repository is its wrapped error. *)
Theorem one_error_line_per_failing_repository (repos : list string) (s : Main.pool) :
  Main.reaches Unmarshal registry (Main.start repos) s ->
  Main.finished s = true ->
  length (filter isErrorLine (Main.out s))
  = length (filter (fails Unmarshal registry) repos)
  /\ (forall repoName e,
         In repoName repos ->
         snd (Main.checkRepo Unmarshal registry repoName) = Some e ->
         In (Stderr (Error e ++ nl)) (Main.out s)
         /\ isErrorLine (Stderr (Error e ++ nl)) = true)
  /\ (forall repoName,
         filter isErrorLine (fst (Main.checkRepo Unmarshal registry repoName)) = []).
Proof.
  intros Hreach Hfin.
  pose proof (reaches_invariant Unmarshal registry repos s Hreach) as Hinv.
  destruct (pool_finished Unmarshal registry repos s Hinv Hfin) as [_ Hperm].
  split; [|split].
  - rewrite (filter_length_Permutation isErrorLine _ _ Hperm).
    apply error_lines_of_visits.
  - intros repoName e Hin He.
    assert (Hline : In (Stderr (Error e ++ nl)) (Main.visit Unmarshal registry repoName)).
    { rewrite (visit_failure Unmarshal registry repoName e He).
      apply in_or_app. right. now left. }
    split.
    + apply (Permutation_in _ (Permutation_sym Hperm)).
      apply in_flat_map. now exists repoName.
    + destruct (checkRepo_error_text repoName e He) as [tail Ht].
      cbn [isErrorLine]. rewrite Ht, append_assoc. apply prefix_append.
  - exact checkRepo_prints_no_error_line.
Qed.

End ErrorLines.

(** The run on "broken" ends with one error line for the one failing
    repository. *)
Lemma one_error_line_on_broken :
  Main.reaches json.Unmarshal (Sample.registryOf Sample.chain)
    (Main.start ["broken"])
    (Main.Pool [] true (repeat Main.Exited 30)
               [Stderr ("unexpected error getting repository: repository unknown" ++ nl)]
               ["broken"])
  /\ Main.finished
       (Main.Pool [] true (repeat Main.Exited 30)
                  [Stderr ("unexpected error getting repository: repository unknown" ++ nl)]
                  ["broken"]) = true
  /\ length (filter (fails json.Unmarshal (Sample.registryOf Sample.chain)) ["broken"]) = 1.
Proof.
  assert (H2 : Main.finished
                 (Main.Pool [] true (repeat Main.Exited 30)
                    [Stderr ("unexpected error getting repository: repository unknown"
                             ++ nl)]
                    ["broken"]) = true) by reflexivity.
  split; [exact pool_run_on_broken|]. split; [exact H2|].
  rewrite <- (proj1 (one_error_line_per_failing_repository json.Unmarshal
                       (Sample.registryOf Sample.chain) ["broken"] _
                       pool_run_on_broken H2)).
  reflexivity.
Defined.

(** After the run on "broken" no step is left. *)
Lemma no_step_after_the_run_on_broken :
  Main.reaches json.Unmarshal (Sample.registryOf Sample.chain)
    (Main.start ["broken"])
    (Main.Pool [] true (repeat Main.Exited 30)
               [Stderr ("unexpected error getting repository: repository unknown" ++ nl)]
               ["broken"])
  /\ forall s',
       ~ Main.step json.Unmarshal (Sample.registryOf Sample.chain)
           (Main.Pool [] true (repeat Main.Exited 30)
              [Stderr ("unexpected error getting repository: repository unknown" ++ nl)]
              ["broken"]) s'.
Proof.
  split; [exact pool_run_on_broken|].
  apply (finished_iff_no_step json.Unmarshal (Sample.registryOf Sample.chain)
           ["broken"] _ pool_run_on_broken).
  reflexivity.
Defined.
